(** * Conjugate compound distributions and numerical utilities of numpyro

    A shallow embedding of [numpyro/distributions/conjugate.py]
    ([BetaBinomial], [DirichletMultinomial], [GammaPoisson]) and of the
    utilities exercised by [test/test_util.py] ([xlogy], [xlog1py],
    [welford_covariance]).

    Arithmetic is exact: an entry of a floating-point array is a real
    number.  The densities and moments are elementwise over the batch
    axes, so they are embedded on one batch element; the constructors are
    embedded on arrays, where shapes matter. *)

From Stdlib Require Import Reals Lra Lia List ZArith Bool FinFun Permutation.
Import ListNotations.
Open Scope R_scope.

(** ** Exceptions *)

Inductive exn : Type :=
| AssertionError
| ValueError
| ValidationError.

Inductive result (A : Type) : Type :=
| Ok (a : A)
| Raise (e : exn).

Arguments Ok {A} a.
Arguments Raise {A} e.

Definition rbind {A B : Type} (m : result A) (f : A -> result B) : result B :=
  match m with
  | Ok a => f a
  | Raise e => Raise e
  end.

Declare Scope result_scope.
Delimit Scope result_scope with result.
Notation "x <- m ;; k" := (rbind m (fun x => k))
  (at level 61, m at next level, right associativity) : result_scope.

(** ** Sums over the last axis *)

Definition Rsum (l : list R) : R := fold_right Rplus 0 l.

Fixpoint map2 {A B C : Type} (f : A -> B -> C) (l : list A) (m : list B) : list C :=
  match l, m with
  | a :: l', b :: m' => f a b :: map2 f l' m'
  | _, _ => []
  end.

(** ** Special functions

    [gammaln] and [betaln] come from [jax.scipy.special] and [log], [log1p]
    from [jax.numpy]; the first two are parameters of the development, and
    the facts assumed of them are the two below. *)

Definition log (x : R) : R := ln x.
Definition log1p (x : R) : R := ln (1 + x).
Definition square (x : R) : R := x * x.

(** [Gamma 1 = 1] and [Gamma (x + 1) = x * Gamma x], in logarithms. *)
Definition gammaln_laws (gammaln : R -> R) : Prop :=
  gammaln 1 = 0 /\ forall x, 0 < x -> gammaln (x + 1) = ln x + gammaln x.

(** [B (a, b) = Gamma a * Gamma b / Gamma (a + b)], in logarithms. *)
Definition betaln_laws (gammaln : R -> R) (betaln : R -> R -> R) : Prop :=
  forall a b, 0 < a -> 0 < b -> betaln a b = gammaln a + gammaln b - gammaln (a + b).

Section LogBeta1.
Variable gammaln : R -> R.

Definition _log_beta_1 (alpha value : R) : R :=
  gammaln (1 + value) + gammaln alpha - gammaln (value + alpha).
End LogBeta1.

(** ** Arrays and shapes

    An array is its shape and its entries; [jnp.shape], [jnp.ndim],
    [lax.broadcast_shapes] and [jnp.broadcast_to] follow NumPy's
    broadcasting rule: shapes are aligned on the last axis, and two
    extents agree when they are equal or one of them is 1. *)

Record ndarray : Type := mk_ndarray
  { shape : list nat; item : list nat -> R }.

Definition ndim (a : ndarray) : nat := length (shape a).

Definition broadcast_dim (a b : nat) : option nat :=
  if Nat.eqb a b then Some a
  else if Nat.eqb a 1 then Some b
  else if Nat.eqb b 1 then Some a
  else None.

(** Broadcasting of two shapes given last axis first. *)
Fixpoint broadcast_rev (s t : list nat) : option (list nat) :=
  match s, t with
  | [], _ => Some t
  | _, [] => Some s
  | a :: s', b :: t' =>
      match broadcast_dim a b, broadcast_rev s' t' with
      | Some d, Some r => Some (d :: r)
      | _, _ => None
      end
  end.

Definition broadcast_shapes2 (s t : list nat) : result (list nat) :=
  match broadcast_rev (rev s) (rev t) with
  | Some r => Ok (rev r)
  | None => Raise ValueError
  end.

Definition broadcast_shapes (shapes : list (list nat)) : result (list nat) :=
  fold_left (fun acc s => (r <- acc ;; broadcast_shapes2 r s)%result)
            shapes (Ok []).

(** The entry of the source array read at index [idx] of its broadcast. *)
Definition source_index (sh idx : list nat) : list nat :=
  map2 (fun d i => if Nat.eqb d 1 then 0%nat else i)
       sh (skipn (length idx - length sh) idx).

Definition broadcast_view (a : ndarray) (s : list nat) : ndarray :=
  mk_ndarray s (fun idx => item a (source_index (shape a) idx)).

Definition broadcast_to (a : ndarray) (s : list nat) : result ndarray :=
  match broadcast_shapes2 (shape a) s with
  | Ok r =>
      if list_eq_dec Nat.eq_dec r s
      then Ok (broadcast_view a s)
      else Raise ValueError
  | Raise e => Raise e
  end.

Fixpoint mapM {A B : Type} (f : A -> result B) (l : list A) : result (list B) :=
  match l with
  | [] => Ok []
  | a :: l' => (b <- f a ;; bs <- mapM f l' ;; Ok (b :: bs))%result
  end.

(** All indices of an array of the given shape, and a test on all entries
    ([jnp.all] of an elementwise test). *)
Fixpoint indices (sh : list nat) : list (list nat) :=
  match sh with
  | [] => [[]]
  | d :: sh' => flat_map (fun i => map (cons i) (indices sh')) (seq 0 d)
  end.

Definition array_all (p : R -> bool) (a : ndarray) : bool :=
  forallb (fun idx => p (item a idx)) (indices (shape a)).

(** ** Helpers of [numpyro.distributions]: [util.py], [constraints.py],
    [distribution.py] *)

Definition Rle_b (x y : R) : bool := if Rle_dec x y then true else false.
Definition Rlt_b (x y : R) : bool := if Rlt_dec x y then true else false.
Definition Req_b (x y : R) : bool := if Req_dec_T x y then true else false.

Module constraints.

(** Modelled from the spec: the constraints of [constraints.py], which is
    not among the sources.  Concentrations are positive, trial counts are
    nonnegative integers; the supports are the integer interval
    [[lower, upper]], the nonnegative integers, and the count vectors of
    nonnegative integers summing to the number of trials. *)
Definition positive (x : R) : bool := Rlt_b 0 x.

Definition is_integer (x : R) : bool := Req_b (frac_part x) 0.

Definition nonnegative_integer (x : R) : bool := Rle_b 0 x && is_integer x.

Definition integer_interval (lower_bound upper_bound x : R) : bool :=
  Rle_b lower_bound x && Rle_b x upper_bound && is_integer x.

Definition multinomial (upper_bound : R) (x : list R) : bool :=
  forallb nonnegative_integer x && Req_b (Rsum x) upper_bound.

End constraints.

(** Modelled from the spec: [promote_shapes] of [util.py], which is not
    among the sources.  The constructors keep what it returns, and the
    spec has every constructor parameter broadcast to one common shape
    before storage: each argument is broadcast to the broadcast of all the
    arguments' shapes and of [shape]. *)
Definition promote_shapes (args : list ndarray) (shape0 : list nat)
  : result (list ndarray) :=
  (common <- broadcast_shapes (shape0 :: map shape args) ;;
   mapM (fun a => broadcast_to a common) args)%result.

(** Modelled from the spec: the [validate_sample] decorator of [util.py],
    which is not among the sources.  With argument validation enabled, a
    value outside the support raises a validation failure; otherwise the
    decorated function's value is returned. *)
Definition validate_sample {S V : Type}
  (validate_args : S -> bool) (support : S -> V -> bool)
  (log_prob_fn : S -> V -> R) (self : S) (value : V) : result R :=
  if validate_args self && negb (support self value)
  then Raise ValidationError
  else Ok (log_prob_fn self value).

Module Distribution.

(** Modelled from the spec: [Distribution.__init__] of [distribution.py],
    which is not among the sources.  It records the batch and event shapes
    and the validation flag, and with validation enabled raises when a
    declared parameter constraint is violated; [arg_constraints] holds the
    outcome of each constraint on its parameter. *)
Definition __init__ (arg_constraints : list bool)
  (batch_shape event_shape : list nat) (validate_args : bool)
  : result (list nat * list nat * bool) :=
  if validate_args && negb (forallb (fun b => b) arg_constraints)
  then Raise ValueError
  else Ok (batch_shape, event_shape, validate_args).

End Distribution.
(** Python's [s[:-1]] and [s[-1:]] on a shape. *)
Definition but_last (s : list nat) : list nat := removelast s.
Definition last_axis (s : list nat) : list nat := skipn (length s - 1) s.

Definition unpack1 {A : Type} (l : list A) : result A :=
  match l with
  | [a] => Ok a
  | _ => Raise ValueError
  end.

Definition unpack2 {A : Type} (l : list A) : result (A * A) :=
  match l with
  | [a; b] => Ok (a, b)
  | _ => Raise ValueError
  end.

Definition unpack3 {A : Type} (l : list A) : result (A * A * A) :=
  match l with
  | [a; b; c] => Ok (a, b, c)
  | _ => Raise ValueError
  end.

(** ** The prior and likelihood classes

    [Beta], [Dirichlet], [Gamma], [BinomialProbs], [MultinomialProbs] and
    [Poisson] are defined in [continuous.py] and [discrete.py]; only what
    [conjugate.py] reads of them is kept. *)

Module Beta.

Record t (A : Type) : Type := mk
  { concentration1 : A; concentration0 : A; batch_shape : list nat }.
Arguments mk {A}.
Arguments concentration1 {A}.
Arguments concentration0 {A}.
Arguments batch_shape {A}.

(** Modelled from the spec: the constructor of [Beta], which is not among
    the sources; its batch shape is the broadcast of its parameters'
    shapes. *)
Definition __init__ (concentration1 concentration0 : ndarray) : result (t ndarray) :=
  (bs <- broadcast_shapes [shape concentration1; shape concentration0] ;;
   Ok (mk concentration1 concentration0 bs))%result.

End Beta.

Module Dirichlet.

Record t (V : Type) : Type := mk
  { concentration : V; batch_shape : list nat; event_shape : list nat }.
Arguments mk {V}.
Arguments concentration {V}.
Arguments batch_shape {V}.
Arguments event_shape {V}.

(** Modelled from the spec: the constructor of [Dirichlet], which is not
    among the sources; the last axis of the concentration is the event
    axis and the others are the batch axes. *)
Definition __init__ (concentration : ndarray) : result (t ndarray) :=
  if Nat.ltb (ndim concentration) 1 then Raise ValueError
  else Ok (mk concentration (but_last (shape concentration))
              (last_axis (shape concentration))).

End Dirichlet.

Module Gamma.

Record t (A : Type) : Type := mk
  { concentration : A; rate : A; batch_shape : list nat }.
Arguments mk {A}.
Arguments concentration {A}.
Arguments rate {A}.
Arguments batch_shape {A}.

(** Modelled from the spec: the constructor of [Gamma], which is not among
    the sources; its batch shape is the broadcast of its parameters'
    shapes. *)
Definition __init__ (concentration rate : ndarray) : result (t ndarray) :=
  (bs <- broadcast_shapes [shape concentration; shape rate] ;;
   Ok (mk concentration rate bs))%result.

End Gamma.

Module BinomialProbs.

Record t (A : Type) : Type := mk { total_count : A; probs : A }.
Arguments mk {A}.
Arguments total_count {A}.
Arguments probs {A}.

End BinomialProbs.

Module MultinomialProbs.

Record t (V A : Type) : Type := mk { total_count : A; probs : V }.
Arguments mk {V A}.
Arguments total_count {V A}.
Arguments probs {V A}.

End MultinomialProbs.

Module Poisson.

Record t (A : Type) : Type := mk { rate : A }.
Arguments mk {A}.
Arguments rate {A}.

End Poisson.

(** ** Random keys and the calls made on them

    [random.split] and the [sample] methods of the prior and likelihood
    classes are supplied from outside; a [sample] of this file returns,
    next to its result, the calls it made on keys, in order. *)

Inductive sampler : Type :=
| SBeta | SBinomialProbs
| SDirichlet | SMultinomialProbs
| SGamma | SPoisson.

Inductive call (key : Type) : Type :=
| RandomSplit (k : key)
| SampleCall (who : sampler) (k : key).

Arguments RandomSplit {key} k.
Arguments SampleCall {key} who k.

Definition M (key X : Type) : Type := (list (call key) * result X)%type.

Definition mret {key X : Type} (x : X) : M key X := ([], Ok x).

Definition mbind {key X Y : Type} (m : M key X) (f : X -> M key Y) : M key Y :=
  match m with
  | (tr, Ok x) => let (tr', r) := f x in (tr ++ tr', r)
  | (tr, Raise e) => (tr, Raise e)
  end.

Definition massert {key : Type} (b : bool) : M key unit :=
  if b then mret tt else ([], Raise AssertionError).

Definition random_split {key : Type} (split : key -> key * key) (k : key)
  : M key (key * key) :=
  ([RandomSplit k], Ok (split k)).

Definition sample_with {key X : Type} (who : sampler) (draw : key -> X) (k : key)
  : M key X :=
  ([SampleCall who k], Ok (draw k)).

Declare Scope rng_scope.
Delimit Scope rng_scope with rng.
Notation "x <- m ;; k" := (mbind m (fun x => k))
  (at level 61, m at next level, right associativity) : rng_scope.
Notation "m ;; k" := (mbind m (fun _ => k))
  (at level 61, right associativity) : rng_scope.

(** ** BetaBinomial *)

Module BetaBinomial.

Record t (A : Type) : Type := mk
  { concentration1 : A;
    concentration0 : A;
    total_count : A;
    _beta : Beta.t A;
    batch_shape : list nat;
    _validate_args : bool }.
Arguments mk {A}.
Arguments concentration1 {A}.
Arguments concentration0 {A}.
Arguments total_count {A}.
Arguments _beta {A}.
Arguments batch_shape {A}.
Arguments _validate_args {A}.

Definition __init__ (concentration1 concentration0 total_count : ndarray)
  (validate_args : bool) : result (t ndarray) :=
  (ps <- promote_shapes [concentration1; concentration0; total_count] [] ;;
   self_params <- unpack3 ps ;;
   let '(self_concentration1, self_concentration0, self_total_count) := self_params in
   batch_shape <- broadcast_shapes
     [shape concentration1; shape concentration0; shape total_count] ;;
   concentration1 <- broadcast_to concentration1 batch_shape ;;
   concentration0 <- broadcast_to concentration0 batch_shape ;;
   _beta <- Beta.__init__ concentration1 concentration0 ;;
   base <- Distribution.__init__
     [array_all constraints.positive self_concentration1;
      array_all constraints.positive self_concentration0;
      array_all constraints.nonnegative_integer self_total_count]
     batch_shape [] validate_args ;;
   let '(batch_shape, _, validate_args) := base in
   Ok (mk self_concentration1 self_concentration0 self_total_count
          _beta batch_shape validate_args))%result.

Section Sample.
Variables key A : Type.
Variable is_prng_key : key -> bool.
Variable split : key -> key * key.
Variable Beta_sample : Beta.t A -> key -> list nat -> A.
Variable BinomialProbs_sample : BinomialProbs.t A -> key -> A.

Definition sample (self : t A) (k : key) (sample_shape : list nat) : M key A :=
  (massert (is_prng_key k) ;;
   ks <- random_split split k ;;
   let '(key_beta, key_binom) := ks in
   probs <- sample_with SBeta
              (fun k' => Beta_sample (_beta self) k' sample_shape) key_beta ;;
   sample_with SBinomialProbs
     (BinomialProbs_sample (BinomialProbs.mk (total_count self) probs))
     key_binom)%rng.
End Sample.

Definition support (self : t R) : R -> bool :=
  constraints.integer_interval 0 (total_count self).

Section Density.
Variable gammaln : R -> R.
Variable betaln : R -> R -> R.

(** The body of [log_prob]. *)
Definition log_prob (self : t R) (value : R) : R :=
  - _log_beta_1 gammaln (total_count self - value + 1) value
  + betaln (value + concentration1 self)
           (total_count self - value + concentration0 self)
  - betaln (concentration0 self) (concentration1 self).

(** [log_prob] under its [validate_sample] decorator. *)
Definition validated_log_prob : t R -> R -> result R :=
  validate_sample _validate_args support log_prob.
End Density.

Section Moments.
Variable Beta_mean : Beta.t R -> R.
Variable Beta_variance : Beta.t R -> R.

Definition mean (self : t R) : R := Beta_mean (_beta self) * total_count self.

Definition variance (self : t R) : R :=
  Beta_variance (_beta self) * total_count self
  * (concentration0 self + concentration1 self + total_count self).
End Moments.

End BetaBinomial.

(** ** DirichletMultinomial

    On one batch element the concentration and the value are vectors over
    the category axis, the last one. *)

Module DirichletMultinomial.

Record t (V A : Type) : Type := mk
  { concentration : V;
    total_count : A;
    _dirichlet : Dirichlet.t V;
    batch_shape : list nat;
    event_shape : list nat;
    _validate_args : bool }.
Arguments mk {V A}.
Arguments concentration {V A}.
Arguments total_count {V A}.
Arguments _dirichlet {V A}.
Arguments batch_shape {V A}.
Arguments event_shape {V A}.
Arguments _validate_args {V A}.

Definition __init__ (concentration total_count : ndarray) (validate_args : bool)
  : result (t ndarray ndarray) :=
  if Nat.ltb (ndim concentration) 1 then Raise ValueError
  else
  (batch_shape <- broadcast_shapes
     [but_last (shape concentration); shape total_count] ;;
   let concentration_shape := batch_shape ++ last_axis (shape concentration) in
   ps <- promote_shapes [concentration] concentration_shape ;;
   self_concentration <- unpack1 ps ;;
   ps' <- promote_shapes [total_count] batch_shape ;;
   self_total_count <- unpack1 ps' ;;
   concentration <- broadcast_to self_concentration concentration_shape ;;
   _dirichlet <- Dirichlet.__init__ concentration ;;
   base <- Distribution.__init__
     [array_all constraints.positive self_concentration;
      array_all constraints.nonnegative_integer self_total_count]
     (Dirichlet.batch_shape _dirichlet) (Dirichlet.event_shape _dirichlet)
     validate_args ;;
   let '(batch_shape, event_shape, validate_args) := base in
   Ok (mk self_concentration self_total_count _dirichlet
          batch_shape event_shape validate_args))%result.

Section Sample.
Variables key V A : Type.
Variable is_prng_key : key -> bool.
Variable split : key -> key * key.
Variable Dirichlet_sample : Dirichlet.t V -> key -> list nat -> V.
Variable MultinomialProbs_sample : MultinomialProbs.t V A -> key -> V.

Definition sample (self : t V A) (k : key) (sample_shape : list nat) : M key V :=
  (massert (is_prng_key k) ;;
   ks <- random_split split k ;;
   let '(key_dirichlet, key_multinom) := ks in
   probs <- sample_with SDirichlet
              (fun k' => Dirichlet_sample (_dirichlet self) k' sample_shape)
              key_dirichlet ;;
   sample_with SMultinomialProbs
     (MultinomialProbs_sample (MultinomialProbs.mk (total_count self) probs))
     key_multinom)%rng.
End Sample.

Definition support (self : t (list R) R) : list R -> bool :=
  constraints.multinomial (total_count self).

Section Density.
Variable gammaln : R -> R.

(** The body of [log_prob]. *)
Definition log_prob (self : t (list R) R) (value : list R) : R :=
  let alpha := concentration self in
  _log_beta_1 gammaln (Rsum alpha) (Rsum value)
  - Rsum (map2 (_log_beta_1 gammaln) alpha value).

(** [log_prob] under its [validate_sample] decorator. *)
Definition validated_log_prob : t (list R) R -> list R -> result R :=
  validate_sample _validate_args support log_prob.
End Density.

Section Moments.
Variable Dirichlet_mean : Dirichlet.t (list R) -> list R.

Definition mean (self : t (list R) R) : list R :=
  map (fun m => m * total_count self) (Dirichlet_mean (_dirichlet self)).
End Moments.

Definition variance (self : t (list R) R) : list R :=
  let n := total_count self in
  let alpha := concentration self in
  let alpha_sum := Rsum (concentration self) in
  let alpha_ratio := map (fun a => a / alpha_sum) alpha in
  map (fun r => n * r * (1 - r) * (n + alpha_sum) / (1 + alpha_sum)) alpha_ratio.

End DirichletMultinomial.

(** ** GammaPoisson *)

Module GammaPoisson.

Record t (A : Type) : Type := mk
  { concentration : A;
    rate : A;
    _gamma : Gamma.t A;
    batch_shape : list nat;
    _validate_args : bool }.
Arguments mk {A}.
Arguments concentration {A}.
Arguments rate {A}.
Arguments _gamma {A}.
Arguments batch_shape {A}.
Arguments _validate_args {A}.

Definition __init__ (concentration rate : ndarray) (validate_args : bool)
  : result (t ndarray) :=
  (ps <- promote_shapes [concentration; rate] [] ;;
   self_params <- unpack2 ps ;;
   let '(self_concentration, self_rate) := self_params in
   _gamma <- Gamma.__init__ concentration rate ;;
   base <- Distribution.__init__
     [array_all constraints.positive self_concentration;
      array_all constraints.positive self_rate]
     (Gamma.batch_shape _gamma) [] validate_args ;;
   let '(batch_shape, _, validate_args) := base in
   Ok (mk self_concentration self_rate _gamma batch_shape validate_args))%result.

Section Sample.
Variables key A : Type.
Variable is_prng_key : key -> bool.
Variable split : key -> key * key.
Variable Gamma_sample : Gamma.t A -> key -> list nat -> A.
Variable Poisson_sample : Poisson.t A -> key -> A.

Definition sample (self : t A) (k : key) (sample_shape : list nat) : M key A :=
  (massert (is_prng_key k) ;;
   ks <- random_split split k ;;
   let '(key_gamma, key_poisson) := ks in
   rate <- sample_with SGamma
             (fun k' => Gamma_sample (_gamma self) k' sample_shape) key_gamma ;;
   sample_with SPoisson (Poisson_sample (Poisson.mk rate)) key_poisson)%rng.
End Sample.

Definition support (self : t R) : R -> bool := constraints.nonnegative_integer.

Section Density.
Variable betaln : R -> R -> R.

(** The body of [log_prob]. *)
Definition log_prob (self : t R) (value : R) : R :=
  let post_value := concentration self + value in
  - betaln (concentration self) (value + 1) - log post_value
  + concentration self * log (rate self) - post_value * log1p (rate self).

(** [log_prob] under its [validate_sample] decorator. *)
Definition validated_log_prob : t R -> R -> result R :=
  validate_sample _validate_args support log_prob.
End Density.

Definition mean (self : t R) : R := concentration self / rate self.

Definition variance (self : t R) : R :=
  concentration self / square (rate self) * (1 + rate self).

End GammaPoisson.
(** ** Stabilized logarithm products ([numpyro.distributions.util])

    These two are about the values a floating-point logarithm takes where
    the real one is undefined, so their entries are extended reals. *)

Module Xlogy.

Inductive xreal : Type :=
| Fin (r : R)
| PInf
| NInf
| NaN.

Definition xlog (y : xreal) : xreal :=
  match y with
  | Fin r => if Rlt_dec 0 r then Fin (ln r)
             else if Req_dec_T r 0 then NInf else NaN
  | PInf => PInf
  | NInf => NaN
  | NaN => NaN
  end.

Definition xlog1p (y : xreal) : xreal :=
  match y with
  | Fin r => xlog (Fin (1 + r))
  | _ => xlog y
  end.

Definition signed_inf (positive : bool) : xreal := if positive then PInf else NInf.

Definition xmul (x y : xreal) : xreal :=
  match x, y with
  | NaN, _ | _, NaN => NaN
  | Fin a, Fin b => Fin (a * b)
  | Fin a, PInf | PInf, Fin a =>
      if Req_dec_T a 0 then NaN else signed_inf (Rlt_b 0 a)
  | Fin a, NInf | NInf, Fin a =>
      if Req_dec_T a 0 then NaN else signed_inf (Rlt_b a 0)
  | PInf, PInf | NInf, NInf => PInf
  | PInf, NInf | NInf, PInf => NInf
  end.

(** [x == 0] on one entry. *)
Definition is_zero (x : xreal) : bool :=
  match x with
  | Fin r => Req_b r 0
  | _ => false
  end.

(** Modelled from the spec: [xlogy] of [util.py], which is not among the
    sources: [x * log y], and [0] whenever [x == 0]. *)
Definition xlogy (x y : xreal) : xreal :=
  if is_zero x then Fin 0 else xmul x (xlog y).

(** Modelled from the spec: [xlog1py] of [util.py], which is not among the
    sources: [x * log (1 + y)], with the same guard on [x]. *)
Definition xlog1py (x y : xreal) : xreal :=
  if is_zero x then Fin 0 else xmul x (xlog1p y).

End Xlogy.

(** ** Welford's running covariance ([numpyro.util]) *)

Module Welford.

Definition vec : Type := list R.
Definition mat : Type := list (list R).

Definition vadd (u v : vec) : vec := map2 Rplus u v.
Definition vsub (u v : vec) : vec := map2 Rminus u v.
Definition vmul (u v : vec) : vec := map2 Rmult u v.
Definition vscale (c : R) (u : vec) : vec := map (Rmult c) u.
Definition vshift (c : R) (u : vec) : vec := map (fun x => x + c) u.
Definition zeros (size : nat) : vec := repeat 0 size.

Definition outer (u v : vec) : mat := map (fun a => map (Rmult a) v) u.
Definition madd (m p : mat) : mat := map2 vadd m p.
Definition mscale (c : R) (m : mat) : mat := map (vscale c) m.
Definition mzeros (size : nat) : mat := repeat (zeros size) size.
Definition identity (size : nat) : mat :=
  map (fun i => map (fun j => if Nat.eqb i j then 1 else 0) (seq 0 size))
      (seq 0 size).

(** The second-moment accumulator and the covariance are a vector in
    diagonal mode and a matrix otherwise. *)
Definition accum (diagonal : bool) : Type := if diagonal then vec else mat.

Record state (diagonal : bool) : Type := mk_state
  { count : nat; mean : vec; m2 : accum diagonal }.
Arguments mk_state {diagonal}.
Arguments count {diagonal}.
Arguments mean {diagonal}.
Arguments m2 {diagonal}.

(** Modelled from the spec: [init] of [welford_covariance], which is not
    among the sources: zero count, mean and accumulator. *)
Definition init_fn (diagonal : bool) (size : nat) : state diagonal :=
  mk_state 0 (zeros size)
    (if diagonal return accum diagonal then zeros size else mzeros size).

(** Modelled from the spec: [update] of [welford_covariance], which is not
    among the sources: the count is incremented, [delta = sample - mean],
    [mean += delta / n], and the accumulator gains the outer product (the
    elementwise product in diagonal mode) of [delta] and [sample - mean],
    taken with the updated mean. *)
Definition update_fn (diagonal : bool) (sample : vec) (st : state diagonal)
  : state diagonal :=
  let n := S (count st) in
  let delta := vsub sample (mean st) in
  let mean' := vadd (mean st) (vscale (/ INR n) delta) in
  let post := vsub sample mean' in
  mk_state n mean'
    ((if diagonal return accum diagonal -> accum diagonal
      then fun acc => vadd acc (vmul delta post)
      else fun acc => madd acc (outer delta post)) (m2 st)).

(** Modelled from the spec: [finalize] of [welford_covariance], which is
    not among the sources: the accumulator over [n - 1], blended with
    [1e-3 * (5 / (n + 5))] times the identity (a vector of ones in diagonal
    mode) when [regularize] is set. *)
Definition final_fn (diagonal : bool) (st : state diagonal) (regularize : bool)
  : accum diagonal :=
  let n := INR (count st) in
  let size := length (mean st) in
  (if diagonal return accum diagonal -> accum diagonal
   then fun acc =>
     let cov := vscale (/ (n - 1)) acc in
     if regularize
     then vadd (vscale (n / (n + 5)) cov)
               (vscale (1 / 1000 * (5 / (n + 5))) (repeat 1 size))
     else cov
   else fun acc =>
     let cov := mscale (/ (n - 1)) acc in
     if regularize
     then madd (mscale (n / (n + 5)) cov)
               (mscale (1 / 1000 * (5 / (n + 5))) (identity size))
     else cov) (m2 st).

Definition welford_covariance (diagonal : bool) :=
  (init_fn diagonal, update_fn diagonal, final_fn diagonal).

(** The loop of the test: [init], then one [update] per sample. *)
Definition run (diagonal : bool) (size : nat) (samples : list vec) : state diagonal :=
  fold_left (fun st x => update_fn diagonal x st) samples (init_fn diagonal size).

(** The unbiased sample covariance, as the spec words it. *)
Definition vsum (size : nat) (l : list vec) : vec := fold_right vadd (zeros size) l.
Definition msum (size : nat) (l : list mat) : mat := fold_right madd (mzeros size) l.

Definition sample_mean (size : nat) (samples : list vec) : vec :=
  vscale (/ INR (length samples)) (vsum size samples).

Definition sample_covariance (size : nat) (samples : list vec) : mat :=
  let mu := sample_mean size samples in
  mscale (/ (INR (length samples) - 1))
    (msum size (map (fun x => outer (vsub x mu) (vsub x mu)) samples)).

Definition sample_variance (size : nat) (samples : list vec) : vec :=
  let mu := sample_mean size samples in
  vscale (/ (INR (length samples) - 1))
    (vsum size (map (fun x => vmul (vsub x mu) (vsub x mu)) samples)).

(** Coordinate sums over the samples seen so far. *)
Definition total (f : vec -> R) (xs : list vec) : R := Rsum (map f xs).

Definition average (f : vec -> R) (xs : list vec) : R :=
  total f xs / INR (length xs).

Definition comoment (f g : vec -> R) (xs : list vec) : R :=
  Rsum (map (fun x => (f x - average f xs) * (g x - average g xs)) xs).

Definition coord (i : nat) (x : vec) : R := nth i x 0.

(** Vectors and matrices tabulated over their indices. *)
Definition tab (d : nat) (F : nat -> R) : vec := map F (seq 0 d).

Definition tab2 (d : nat) (F : nat -> nat -> R) : mat :=
  map (fun i => tab d (F i)) (seq 0 d).

End Welford.
(** ** Notions used by the statements *)

(** The count-normalisation term, as the spec words it. *)
Definition logBetaCount (gammaln : R -> R) (alpha v : R) : R :=
  gammaln (1 + v) + gammaln alpha - gammaln (v + alpha).

(** The rising factorial [x (x + 1) ... (x + k - 1)]. *)
Fixpoint rising (x : R) (k : nat) : R :=
  match k with
  | O => 1
  | S k' => rising x k' * (x + INR k')
  end.

(** The count vectors over [k] categories that sum to [n]. *)
Fixpoint compositions (k n : nat) : list (list nat) :=
  match k with
  | O => match n with O => [[]] | S _ => [] end
  | S k' =>
      flat_map (fun i => map (cons i) (compositions k' (n - i))) (seq 0 (S n))
  end.

(** The supports, as sets. *)
Definition integral (x : R) : Prop := exists z : Z, x = IZR z.

Definition in_integer_interval (lower upper x : R) : Prop :=
  lower <= x <= upper /\ integral x.

Definition is_nonnegative_integer (x : R) : Prop := 0 <= x /\ integral x.

Definition is_count_vector (total : R) (x : list R) : Prop :=
  Forall is_nonnegative_integer x /\ Rsum x = total.

(** [rising x k / k!], by its recurrence. *)
Fixpoint rising_over_fact (x : R) (k : nat) : R :=
  match k with
  | O => 1
  | S k' => rising_over_fact x k' * (x + INR k') / INR (S k')
  end.

(** The product over the categories of [rising alpha_i x_i / x_i!]. *)
Fixpoint composition_weight (alpha : list R) (x : list nat) : R :=
  match alpha, x with
  | a :: alpha', i :: x' => rising_over_fact a i * composition_weight alpha' x'
  | _, _ => 1
  end.

(** The arguments [_log_beta_1] gives to [gammaln], and those
    [DirichletMultinomial.log_prob] does; the logarithm of the Gamma
    function is finite on the positive reals. *)
Definition _log_beta_1_arguments (alpha value : R) : list R :=
  [1 + value; alpha; value + alpha].

Definition DirichletMultinomial_gammaln_arguments
  (alpha value : list R) : list R :=
  _log_beta_1_arguments (Rsum alpha) (Rsum value)
  ++ concat (map2 _log_beta_1_arguments alpha value).

(** Distributions on one batch element, and the shape relation. *)
Definition beta_binomial (c1 c0 n : R) : BetaBinomial.t R :=
  BetaBinomial.mk c1 c0 n (Beta.mk c1 c0 []) [] false.

Definition gamma_poisson (concentration rate : R) : GammaPoisson.t R :=
  GammaPoisson.mk concentration rate (Gamma.mk concentration rate []) [] false.

Definition dirichlet_multinomial (alpha : list R) (n : R)
  : DirichletMultinomial.t (list R) R :=
  DirichletMultinomial.mk alpha n (Dirichlet.mk alpha [] [length alpha])
    [] [length alpha] false.

(** [s] broadcasts to [r]. *)
Definition broadcasts_to (s r : list nat) : Prop := broadcast_shapes2 s r = Ok r.

(** A splittable key: a path in a binary tree, split into its two
    children. *)
Definition path_split (p : positive) : positive * positive := (xO p, xI p).

(** Sums over the count vectors: a function of one category weighted by
    [composition_weight], and the expectation of a function of the count
    vector under [DirichletMultinomial.log_prob]. *)
Definition composition_moment (g : nat -> R) (i : nat) (alpha : list R) (n : nat)
  : R :=
  Rsum (map (fun x => g (nth i x 0%nat) * composition_weight alpha x)
            (compositions (length alpha) n)).

Definition DirichletMultinomial_expectation (gammaln : R -> R)
  (self : DirichletMultinomial.t (list R) R) (n : nat) (h : list nat -> R) : R :=
  Rsum (map (fun x => h x * exp (DirichletMultinomial.log_prob gammaln self
                                   (map INR x)))
            (compositions (length (DirichletMultinomial.concentration self)) n)).

(** [rising_over_fact (b + 1) (n - 1)] and [rising_over_fact (b + 2) (n - 2)],
    and [0] where [n] is too small. *)
Definition rising_over_fact_1 (b : R) (n : nat) : R :=
  match n with
  | O => 0
  | S m => rising_over_fact (b + 1) m
  end.

Definition rising_over_fact_2 (b : R) (n : nat) : R :=
  match n with
  | S (S m) => rising_over_fact (b + 2) m
  | _ => 0
  end.

(** * The logarithm of the Gamma function

    A function satisfying [gammaln_laws] exists: the logarithm of Euler's
    Gamma function, built here as the limit of Gauss's product. *)

Module LogGamma.

(** Partial logarithms of Gauss's product [n! n^x / (x (x+1) ... (x+n))],
    taken at [n = S m]. *)
Definition gauss_log (x : R) (m : nat) : R :=
  x * ln (INR (S m))
  + sum_f_R0 (fun k => ln (INR (S k)) - ln (x + INR (S k))) m
  - ln x.

Lemma ln_le_pred (y : R) : 0 < y -> ln y <= y - 1.
Proof.
  intros Hy. pose proof (exp_ineq1_le (ln y)) as H.
  rewrite exp_ln in H by assumption. lra.
Qed.

Lemma ln_diff_le (a b : R) : 0 < a -> 0 < b -> ln a - ln b <= (a - b) / b.
Proof.
  intros Ha Hb.
  assert (Hq : 0 < a / b) by (apply Rdiv_lt_0_compat; assumption).
  pose proof (ln_le_pred (a / b) Hq) as H.
  unfold Rdiv in H at 1.
  rewrite ln_mult, ln_Rinv in H; try assumption.
  - replace ((a - b) / b) with (a / b - 1) by (field; lra). lra.
  - apply Rinv_0_lt_compat; assumption.
Qed.

Lemma INR_S_pos (m : nat) : 0 < INR (S m).
Proof. apply lt_0_INR. lia. Qed.

Lemma gauss_log_step (x : R) (m : nat) :
  gauss_log x (S m) - gauss_log x m =
  x * (ln (INR (S (S m))) - ln (INR (S m)))
  - (ln (x + INR (S (S m))) - ln (INR (S (S m)))).
Proof. unfold gauss_log. cbn [sum_f_R0]. ring. Qed.

Lemma gauss_log_step_bounds (x : R) (m : nat) :
  0 < x ->
  0 <= gauss_log x (S m) - gauss_log x m
    <= x * (x + 1) * (/ INR (S m) - / INR (S (S m))).
Proof.
  intros Hx. rewrite gauss_log_step.
  pose proof (INR_S_pos m) as Hm. pose proof (INR_S_pos (S m)) as Hm'.
  assert (HS : INR (S (S m)) = INR (S m) + 1) by (rewrite (S_INR (S m)); ring).
  set (p := INR (S m)) in *. set (q := INR (S (S m))) in *.
  pose proof (ln_diff_le p q Hm Hm') as L1.
  pose proof (ln_diff_le q p Hm' Hm) as L2.
  assert (Hxq : 0 < x + q) by lra.
  pose proof (ln_diff_le (x + q) q Hxq Hm') as L3.
  pose proof (ln_diff_le q (x + q) Hm' Hxq) as L4.
  replace ((p - q) / q) with (- / q) in L1 by (rewrite HS; field; lra).
  replace ((q - p) / p) with (/ p) in L2 by (rewrite HS; field; lra).
  replace ((x + q - q) / q) with (x * / q) in L3 by (field; lra).
  replace ((q - (x + q)) / (x + q)) with (- (x * / (x + q))) in L4 by (field; lra).
  assert (Hiq : 0 < / q) by (apply Rinv_0_lt_compat; assumption).
  assert (Hip : 0 < / p) by (apply Rinv_0_lt_compat; assumption).
  split.
  - assert (x * / q <= x * (ln q - ln p)) by (apply Rmult_le_compat_l; lra).
    lra.
  - assert (x * (ln q - ln p) <= x * / p) by (apply Rmult_le_compat_l; lra).
    assert (Hk : x * / p - x * / (x + q) <= x * (x + 1) * (/ p - / q)).
    { assert (E1 : x * / p - x * / (x + q) = x * (x + 1) * / (p * (x + q))).
      { rewrite HS. field. lra. }
      assert (E2 : / p - / q = / (p * q)).
      { rewrite HS. field. lra. }
      rewrite E1, E2.
      apply Rmult_le_compat_l.
      - apply Rmult_le_pos; lra.
      - apply Rinv_le_contravar.
        + apply Rmult_lt_0_compat; assumption.
        + apply Rmult_le_compat_l; lra. }
    lra.
Qed.

Lemma gauss_log_growing (x : R) : 0 < x -> Un_growing (gauss_log x).
Proof.
  intros Hx m. pose proof (gauss_log_step_bounds x m Hx). lra.
Qed.

Lemma gauss_log_le (x : R) (m : nat) :
  0 < x ->
  gauss_log x m + x * (x + 1) * / INR (S m) <= gauss_log x 0 + x * (x + 1).
Proof.
  intros Hx. induction m as [|m IH].
  - change (INR 1) with 1. rewrite Rinv_1. lra.
  - pose proof (gauss_log_step_bounds x m Hx). lra.
Qed.

Lemma gauss_log_has_ub (x : R) : 0 < x -> has_ub (gauss_log x).
Proof.
  intros Hx. exists (gauss_log x 0 + x * (x + 1)).
  intros r [m ->].
  pose proof (gauss_log_le x m Hx) as H.
  assert (0 <= x * (x + 1) * / INR (S m)).
  { apply Rmult_le_pos.
    - apply Rmult_le_pos; lra.
    - left. apply Rinv_0_lt_compat, INR_S_pos. }
  lra.
Qed.

(** The logarithm of Euler's Gamma function on the positive reals, as the
    limit of Gauss's product; [0] elsewhere. *)
Definition lgamma (x : R) : R :=
  match Rlt_dec 0 x with
  | left Hx => proj1_sig (growing_cv (gauss_log x) (gauss_log_growing x Hx)
                                     (gauss_log_has_ub x Hx))
  | right _ => 0
  end.

Lemma lgamma_cv (x : R) : 0 < x -> Un_cv (gauss_log x) (lgamma x).
Proof.
  intros Hx. unfold lgamma. destruct (Rlt_dec 0 x) as [H|H]; [|contradiction].
  apply proj2_sig.
Qed.

Lemma cv_ratio_0 (c : R) : 0 <= c -> Un_cv (fun m => c * / INR (S m)) 0.
Proof.
  intros Hc eps Heps.
  destruct (INR_unbounded (c / eps)) as [N HN].
  exists N. intros n Hn.
  pose proof (INR_S_pos n) as Hpos.
  assert (Hle : INR N <= INR n) by (apply le_INR; lia).
  assert (Hlt : c / eps < INR (S n)) by (rewrite S_INR; lra).
  unfold R_dist. rewrite Rminus_0_r.
  rewrite Rabs_pos_eq.
  - apply Rmult_lt_reg_r with (INR (S n)); [assumption|].
    rewrite Rmult_assoc, Rinv_l by lra. rewrite Rmult_1_r.
    apply Rmult_lt_reg_r with (/ eps); [apply Rinv_0_lt_compat; lra|].
    replace (eps * INR (S n) * / eps) with (INR (S n)) by (field; lra).
    exact Hlt.
  - apply Rmult_le_pos; [assumption|]. left. apply Rinv_0_lt_compat; assumption.
Qed.

Lemma cv_squeeze_0 (Un Vn : nat -> R) :
  (forall m, 0 <= Un m <= Vn m) -> Un_cv Vn 0 -> Un_cv Un 0.
Proof.
  intros Hb Hv eps Heps. destruct (Hv eps Heps) as [N HN].
  exists N. intros n Hn. specialize (HN n Hn). specialize (Hb n).
  unfold R_dist in *. rewrite Rminus_0_r in *.
  rewrite Rabs_pos_eq by lra.
  rewrite Rabs_pos_eq in HN by lra. lra.
Qed.

Lemma cv_ln_shift (c : R) :
  0 <= c -> Un_cv (fun m => ln (c + INR (S m)) - ln (INR (S m))) 0.
Proof.
  intros Hc. apply cv_squeeze_0 with (Vn := fun m => c * / INR (S m)).
  - intros m. pose proof (INR_S_pos m) as Hm.
    assert (Hcm : 0 < c + INR (S m)) by lra.
    pose proof (ln_diff_le (c + INR (S m)) (INR (S m)) Hcm Hm) as L1.
    pose proof (ln_diff_le (INR (S m)) (c + INR (S m)) Hm Hcm) as L2.
    replace ((c + INR (S m) - INR (S m)) / INR (S m)) with (c * / INR (S m))
      in L1 by (field; lra).
    assert (0 <= c / (c + INR (S m))).
    { apply Rmult_le_pos; [assumption|]. left. apply Rinv_0_lt_compat; assumption. }
    replace ((INR (S m) - (c + INR (S m))) / (c + INR (S m)))
      with (- (c / (c + INR (S m)))) in L2 by (field; lra).
    lra.
  - apply cv_ratio_0; assumption.
Qed.

Lemma gauss_log_telescope (x : R) (m : nat) :
  sum_f_R0 (fun k => ln (x + INR (S k)) - ln (x + 1 + INR (S k))) m
  = ln (x + 1) - ln (x + 1 + INR (S m)).
Proof.
  induction m as [|m IH].
  - cbn [sum_f_R0]. change (INR 1) with 1. reflexivity.
  - cbn [sum_f_R0]. rewrite IH.
    replace (x + INR (S (S m))) with (x + 1 + INR (S m))
      by (rewrite (S_INR (S m)); ring).
    ring.
Qed.

Lemma gauss_log_shift (x : R) (m : nat) :
  gauss_log (x + 1) m - gauss_log x m
  = ln x - (ln (x + 1 + INR (S m)) - ln (INR (S m))).
Proof.
  unfold gauss_log.
  pose proof (gauss_log_telescope x m) as T.
  assert (E : sum_f_R0 (fun k => ln (INR (S k)) - ln (x + 1 + INR (S k))) m
              - sum_f_R0 (fun k => ln (INR (S k)) - ln (x + INR (S k))) m
              = sum_f_R0 (fun k => ln (x + INR (S k)) - ln (x + 1 + INR (S k))) m).
  { clear T. induction m as [|m IH]; cbn [sum_f_R0]; [ring|].
    rewrite <- IH. ring. }
  rewrite T in E. lra.
Qed.

(** [Gamma (x + 1) = x * Gamma x], in logarithms. *)
Lemma lgamma_succ (x : R) : 0 < x -> lgamma (x + 1) = ln x + lgamma x.
Proof.
  intros Hx.
  assert (Hx1 : 0 < x + 1) by lra.
  pose proof (CV_minus _ _ _ _ (lgamma_cv (x + 1) Hx1) (lgamma_cv x Hx)) as Hd.
  assert (Hl : Un_cv (fun m => gauss_log (x + 1) m - gauss_log x m) (ln x)).
  { assert (Hs : Un_cv (fun m => ln x - (ln (x + 1 + INR (S m)) - ln (INR (S m))))
                       (ln x - 0)).
    { apply CV_minus.
      - intros eps Heps. exists 0%nat. intros n _. unfold R_dist.
        rewrite Rminus_diag, Rabs_R0. exact Heps.
      - apply cv_ln_shift. lra. }
    rewrite Rminus_0_r in Hs.
    intros eps Heps. destruct (Hs eps Heps) as [N HN]. exists N.
    intros n Hn. rewrite gauss_log_shift. apply HN, Hn. }
  pose proof (UL_sequence _ _ _ Hd Hl). lra.
Qed.

(** [Gamma 1 = 1], in logarithms. *)
Lemma lgamma_1 : lgamma 1 = 0.
Proof.
  assert (H1 : 0 < 1) by lra.
  apply (UL_sequence _ _ _ (lgamma_cv 1 H1)).
  assert (Hs : Un_cv (fun m => - (ln (1 + INR (S m)) - ln (INR (S m)))) (- 0)).
  { apply CV_opp. apply cv_ln_shift. lra. }
  rewrite Ropp_0 in Hs.
  intros eps Heps. destruct (Hs eps Heps) as [N HN]. exists N.
  intros n Hn. specialize (HN n Hn).
  replace (gauss_log 1 n) with (- (ln (1 + INR (S n)) - ln (INR (S n)))); [exact HN|].
  unfold gauss_log.
  assert (T : sum_f_R0 (fun k => ln (INR (S k)) - ln (1 + INR (S k))) n
              = - ln (1 + INR (S n))).
  { clear. induction n as [|n IH]; cbn [sum_f_R0].
    - change (INR 1) with 1. rewrite ln_1. ring.
    - rewrite IH. replace (1 + INR (S n)) with (INR (S (S n)))
        by (rewrite (S_INR (S n)); ring). ring. }
  rewrite T, ln_1. ring.
Qed.

End LogGamma.

Definition lbeta (a b : R) : R :=
  LogGamma.lgamma a + LogGamma.lgamma b - LogGamma.lgamma (a + b).

Lemma lgamma_laws : gammaln_laws LogGamma.lgamma.
Proof. split; [exact LogGamma.lgamma_1 | exact LogGamma.lgamma_succ]. Qed.

Lemma lbeta_laws : betaln_laws LogGamma.lgamma lbeta.
Proof. intros a b _ _. reflexivity. Qed.

(** * Consequences of the laws of [gammaln] *)

Section GammaFacts.
Variable gammaln : R -> R.
Hypothesis gammaln_ok : gammaln_laws gammaln.

Lemma gammaln_1 : gammaln 1 = 0.
Proof. exact (proj1 gammaln_ok). Qed.

Lemma gammaln_succ (x : R) : 0 < x -> gammaln (x + 1) = ln x + gammaln x.
Proof. exact (proj2 gammaln_ok x). Qed.

Lemma gammaln_2 : gammaln 2 = 0.
Proof.
  replace 2 with (1 + 1) by ring.
  rewrite gammaln_succ by lra. rewrite ln_1, gammaln_1. ring.
Qed.

Lemma rising_pos (x : R) (k : nat) : 0 < x -> 0 < rising x k.
Proof.
  intros Hx. induction k as [|k IH]; cbn [rising]; [lra|].
  apply Rmult_lt_0_compat; [exact IH|].
  pose proof (pos_INR k). lra.
Qed.

Lemma gammaln_shift (x : R) (k : nat) :
  0 < x -> gammaln (x + INR k) = gammaln x + ln (rising x k).
Proof.
  intros Hx. induction k as [|k IH].
  - cbn [rising INR]. rewrite ln_1, !Rplus_0_r. reflexivity.
  - cbn [rising]. rewrite S_INR.
    replace (x + (INR k + 1)) with (x + INR k + 1) by ring.
    pose proof (pos_INR k) as Hk.
    rewrite gammaln_succ by lra. rewrite IH.
    rewrite ln_mult; [ring | apply rising_pos; exact Hx | lra].
Qed.

End GammaFacts.

(** * BetaBinomial and GammaPoisson: the densities and the moments *)



Section BetaBinomialDensity.
Variable gammaln : R -> R.
Variable betaln : R -> R -> R.
Hypothesis gammaln_ok : gammaln_laws gammaln.
Hypothesis betaln_ok : betaln_laws gammaln betaln.

Lemma BetaBinomial_log_prob_unfold (self : BetaBinomial.t R) (v : R) :
  BetaBinomial.log_prob gammaln betaln self v
  = betaln (v + BetaBinomial.concentration1 self)
           (BetaBinomial.total_count self - v + BetaBinomial.concentration0 self)
    - betaln (BetaBinomial.concentration0 self) (BetaBinomial.concentration1 self)
    - logBetaCount gammaln (BetaBinomial.total_count self - v + 1) v.
Proof. unfold BetaBinomial.log_prob, _log_beta_1, logBetaCount. ring. Qed.

Lemma BetaBinomial_uniform (self : BetaBinomial.t R) (v : Z) :
  BetaBinomial.concentration1 self = 1 ->
  BetaBinomial.concentration0 self = 1 ->
  BetaBinomial.total_count self = 5 ->
  (0 <= v <= 5)%Z ->
  exp (BetaBinomial.log_prob gammaln betaln self (IZR v)) = 1 / 6.
Proof.
  intros H1 H0 Hn [Hlo Hhi].
  apply IZR_le in Hlo, Hhi.
  unfold BetaBinomial.log_prob, _log_beta_1. rewrite H1, H0, Hn.
  rewrite !betaln_ok by lra.
  replace (1 + IZR v) with (IZR v + 1) by ring.
  replace (IZR v + (5 - IZR v + 1)) with 6 by ring.
  replace (IZR v + 1 + (5 - IZR v + 1)) with (6 + 1) by ring.
  rewrite (gammaln_succ gammaln gammaln_ok 6) by lra.
  rewrite (gammaln_succ gammaln gammaln_ok 1) by lra.
  rewrite (gammaln_1 gammaln gammaln_ok), ln_1.
  match goal with |- exp ?e = _ => replace e with (- ln 6) by ring end.
  rewrite exp_Ropp, exp_ln by lra. lra.
Qed.

End BetaBinomialDensity.

(** C1. For concentrations [c1, c0 > 0], a nonnegative integer number of
    trials [n] and an integer [0 <= v <= n], [BetaBinomial.log_prob] at [v]
    is [logBeta (v + c1, n - v + c0) - logBeta (c0, c1)
    - logBetaCount (n - v + 1, v)]; and for [c1 = c0 = 1], [n = 5] the
    probability [exp (log_prob v)] is [1/6] at each of [v = 0 .. 5]. *)
Theorem BetaBinomial_log_prob_closed_form
  (gammaln : R -> R) (betaln : R -> R -> R) :
  gammaln_laws gammaln -> betaln_laws gammaln betaln ->
  (forall (self : BetaBinomial.t R) (n v : Z),
     0 < BetaBinomial.concentration1 self ->
     0 < BetaBinomial.concentration0 self ->
     BetaBinomial.total_count self = IZR n ->
     (0 <= v <= n)%Z ->
     BetaBinomial.log_prob gammaln betaln self (IZR v)
     = betaln (IZR v + BetaBinomial.concentration1 self)
              (IZR n - IZR v + BetaBinomial.concentration0 self)
       - betaln (BetaBinomial.concentration0 self)
                (BetaBinomial.concentration1 self)
       - logBetaCount gammaln (IZR n - IZR v + 1) (IZR v))
  /\ (forall v : Z, (0 <= v <= 5)%Z ->
        exp (BetaBinomial.log_prob gammaln betaln (beta_binomial 1 1 5) (IZR v))
        = 1 / 6).
Proof.
  intros Hg Hb. split.
  - intros self n v _ _ Hn _.
    rewrite BetaBinomial_log_prob_unfold, Hn. reflexivity.
  - intros v Hv.
    apply (BetaBinomial_uniform gammaln betaln Hg Hb); auto.
Qed.

Lemma BetaBinomial_log_prob_closed_form_witness :
  BetaBinomial.log_prob LogGamma.lgamma lbeta (beta_binomial 2 3 4) (IZR 1)
  = lbeta (IZR 1 + 2) (IZR 4 - IZR 1 + 3) - lbeta 3 2
    - logBetaCount LogGamma.lgamma (IZR 4 - IZR 1 + 1) (IZR 1)
  /\ exp (BetaBinomial.log_prob LogGamma.lgamma lbeta (beta_binomial 1 1 5) (IZR 2))
     = 1 / 6.
Proof.
  destruct (BetaBinomial_log_prob_closed_form LogGamma.lgamma lbeta
              lgamma_laws lbeta_laws) as [Hform Hunif].
  split.
  - apply (Hform (beta_binomial 2 3 4) 4%Z 1%Z); simpl; try lra; try lia.
  - apply (Hunif 2%Z). lia.
Defined.

(** C10. For [c1, c0 > 0], a nonnegative integer [n] and an integer
    [0 <= v <= n], the log-density of [BetaBinomial (c1, c0, n)] at [v] is
    that of [BetaBinomial (c0, c1, n)] at [n - v]. *)
Theorem BetaBinomial_log_prob_swap_reflect
  (gammaln : R -> R) (betaln : R -> R -> R) :
  betaln_laws gammaln betaln ->
  forall (c1 c0 : R) (n v : Z),
    0 < c1 -> 0 < c0 -> (0 <= v <= n)%Z ->
    BetaBinomial.log_prob gammaln betaln (beta_binomial c1 c0 (IZR n)) (IZR v)
    = BetaBinomial.log_prob gammaln betaln (beta_binomial c0 c1 (IZR n))
        (IZR (n - v)).
Proof.
  intros Hb c1 c0 n v H1 H0 [Hlo Hhi].
  apply IZR_le in Hlo, Hhi.
  unfold BetaBinomial.log_prob, _log_beta_1, beta_binomial. cbn.
  rewrite minus_IZR.
  assert (P1 : 0 < IZR v + c1) by lra.
  assert (P2 : 0 < IZR n - IZR v + c0) by lra.
  rewrite (Hb (IZR v + c1)), (Hb c0 c1), (Hb c1 c0) by lra.
  rewrite (Hb (IZR n - IZR v + c0)) by lra.
  replace (IZR n - (IZR n - IZR v) + 1) with (1 + IZR v) by ring.
  replace (1 + (IZR n - IZR v)) with (IZR n - IZR v + 1) by ring.
  replace (IZR n - IZR v + (1 + IZR v)) with (IZR v + (IZR n - IZR v + 1)) by ring.
  replace (IZR n - (IZR n - IZR v) + c1) with (IZR v + c1) by ring.
  replace (IZR n - IZR v + c0 + (IZR v + c1))
    with (IZR v + c1 + (IZR n - IZR v + c0)) by ring.
  replace (c1 + c0) with (c0 + c1) by ring.
  ring.
Qed.

Lemma BetaBinomial_log_prob_swap_reflect_witness :
  BetaBinomial.log_prob LogGamma.lgamma lbeta (beta_binomial 2 3 (IZR 4)) (IZR 1)
  = BetaBinomial.log_prob LogGamma.lgamma lbeta (beta_binomial 3 2 (IZR 4))
      (IZR (4 - 1)).
Proof.
  apply (BetaBinomial_log_prob_swap_reflect LogGamma.lgamma lbeta lbeta_laws
           2 3 4%Z 1%Z); try lra; lia.
Defined.

(** C3. For [concentration = alpha > 0], [rate > 0] and a nonnegative
    integer [v], [GammaPoisson.log_prob] at [v] is
    [- logBeta (alpha, v + 1) - log (alpha + v) + alpha * log rate
     - (alpha + v) * log1p rate], every logarithm being taken of a positive
    number. *)
Theorem GammaPoisson_log_prob_closed_form (betaln : R -> R -> R) :
  forall (self : GammaPoisson.t R) (v : Z),
    let alpha := GammaPoisson.concentration self in
    let rate := GammaPoisson.rate self in
    0 < alpha -> 0 < rate -> (0 <= v)%Z ->
    GammaPoisson.log_prob betaln self (IZR v)
    = - betaln alpha (IZR v + 1) - ln (alpha + IZR v)
      + alpha * ln rate - (alpha + IZR v) * ln (1 + rate)
    /\ 0 < alpha + IZR v /\ 0 < 1 + rate.
Proof.
  intros self v alpha rate Ha Hr Hv. apply IZR_le in Hv.
  split; [reflexivity | lra].
Qed.

Lemma GammaPoisson_log_prob_closed_form_witness :
  GammaPoisson.log_prob lbeta (gamma_poisson 2 3) (IZR 4)
  = - lbeta 2 (IZR 4 + 1) - ln (2 + IZR 4) + 2 * ln 3 - (2 + IZR 4) * ln (1 + 3)
  /\ 0 < 2 + IZR 4 /\ 0 < 1 + 3.
Proof.
  apply (GammaPoisson_log_prob_closed_form lbeta (gamma_poisson 2 3) 4%Z);
    simpl; try lra; lia.
Defined.

(** C4. For [concentration > 0] and [rate > 0], [GammaPoisson.mean] is
    [concentration / rate] and [GammaPoisson.variance] is
    [concentration / rate^2 * (1 + rate)]; both are functions of the two
    parameters alone. *)
Theorem GammaPoisson_moments :
  forall self : GammaPoisson.t R,
    let alpha := GammaPoisson.concentration self in
    let rate := GammaPoisson.rate self in
    0 < alpha -> 0 < rate ->
    GammaPoisson.mean self = alpha / rate
    /\ GammaPoisson.variance self = alpha / rate ^ 2 * (1 + rate).
Proof.
  intros self alpha rate _ _. split; [reflexivity|].
  unfold GammaPoisson.variance, square. fold alpha rate.
  replace (rate ^ 2) with (rate * rate) by ring. reflexivity.
Qed.

Lemma GammaPoisson_moments_witness :
  GammaPoisson.mean (gamma_poisson 6 2) = 6 / 2
  /\ GammaPoisson.variance (gamma_poisson 6 2) = 6 / 2 ^ 2 * (1 + 2).
Proof.
  apply (GammaPoisson_moments (gamma_poisson 6 2)); simpl; lra.
Defined.

(** * Sampling: the key is split once and each half is used once *)

Section Sampling.
Variables key A V : Type.
Variable is_prng_key : key -> bool.
Variable split : key -> key * key.

Lemma BetaBinomial_sample_trace
  (Beta_sample : Beta.t A -> key -> list nat -> A)
  (BinomialProbs_sample : BinomialProbs.t A -> key -> A)
  (self : BetaBinomial.t A) (k : key) (sample_shape : list nat) :
  is_prng_key k = true ->
  BetaBinomial.sample key A is_prng_key split Beta_sample BinomialProbs_sample
    self k sample_shape
  = ([RandomSplit k; SampleCall SBeta (fst (split k));
      SampleCall SBinomialProbs (snd (split k))],
     Ok (BinomialProbs_sample
           (BinomialProbs.mk (BetaBinomial.total_count self)
              (Beta_sample (BetaBinomial._beta self) (fst (split k)) sample_shape))
           (snd (split k)))).
Proof.
  intros Hk. unfold BetaBinomial.sample, massert. rewrite Hk.
  cbn. destruct (split k) as [k1 k2]. reflexivity.
Qed.

Lemma DirichletMultinomial_sample_trace
  (Dirichlet_sample : Dirichlet.t V -> key -> list nat -> V)
  (MultinomialProbs_sample : MultinomialProbs.t V A -> key -> V)
  (self : DirichletMultinomial.t V A) (k : key) (sample_shape : list nat) :
  is_prng_key k = true ->
  DirichletMultinomial.sample key V A is_prng_key split Dirichlet_sample
    MultinomialProbs_sample self k sample_shape
  = ([RandomSplit k; SampleCall SDirichlet (fst (split k));
      SampleCall SMultinomialProbs (snd (split k))],
     Ok (MultinomialProbs_sample
           (MultinomialProbs.mk (DirichletMultinomial.total_count self)
              (Dirichlet_sample (DirichletMultinomial._dirichlet self)
                 (fst (split k)) sample_shape))
           (snd (split k)))).
Proof.
  intros Hk. unfold DirichletMultinomial.sample, massert. rewrite Hk.
  cbn. destruct (split k) as [k1 k2]. reflexivity.
Qed.

Lemma GammaPoisson_sample_trace
  (Gamma_sample : Gamma.t A -> key -> list nat -> A)
  (Poisson_sample : Poisson.t A -> key -> A)
  (self : GammaPoisson.t A) (k : key) (sample_shape : list nat) :
  is_prng_key k = true ->
  GammaPoisson.sample key A is_prng_key split Gamma_sample Poisson_sample
    self k sample_shape
  = ([RandomSplit k; SampleCall SGamma (fst (split k));
      SampleCall SPoisson (snd (split k))],
     Ok (Poisson_sample
           (Poisson.mk (Gamma_sample (GammaPoisson._gamma self) (fst (split k))
                          sample_shape))
           (snd (split k)))).
Proof.
  intros Hk. unfold GammaPoisson.sample, massert. rewrite Hk.
  cbn. destruct (split k) as [k1 k2]. reflexivity.
Qed.

End Sampling.

(** C5. For each compound distribution and every PRNG key, [sample] splits
    the key once, into two sub-keys; the prior is sampled with the first
    and the likelihood, built on that draw, with the second; no other call
    is made on a key, and, [random.split] returning two distinct keys, the
    two draws never receive the same key. *)
Theorem sample_splits_key_once
  (key A V : Type) (is_prng_key : key -> bool) (split : key -> key * key) :
  (forall k, fst (split k) <> snd (split k)) ->
  forall (k : key) (sample_shape : list nat),
    is_prng_key k = true ->
    let key_prior := fst (split k) in
    let key_likelihood := snd (split k) in
    key_prior <> key_likelihood
    /\ (forall Beta_sample BinomialProbs_sample self,
          BetaBinomial.sample key A is_prng_key split Beta_sample
            BinomialProbs_sample self k sample_shape
          = ([RandomSplit k; SampleCall SBeta key_prior;
              SampleCall SBinomialProbs key_likelihood],
             Ok (BinomialProbs_sample
                   (BinomialProbs.mk (BetaBinomial.total_count self)
                      (Beta_sample (BetaBinomial._beta self) key_prior
                         sample_shape))
                   key_likelihood)))
    /\ (forall Dirichlet_sample MultinomialProbs_sample self,
          DirichletMultinomial.sample key V A is_prng_key split Dirichlet_sample
            MultinomialProbs_sample self k sample_shape
          = ([RandomSplit k; SampleCall SDirichlet key_prior;
              SampleCall SMultinomialProbs key_likelihood],
             Ok (MultinomialProbs_sample
                   (MultinomialProbs.mk (DirichletMultinomial.total_count self)
                      (Dirichlet_sample (DirichletMultinomial._dirichlet self)
                         key_prior sample_shape))
                   key_likelihood)))
    /\ (forall Gamma_sample Poisson_sample self,
          GammaPoisson.sample key A is_prng_key split Gamma_sample
            Poisson_sample self k sample_shape
          = ([RandomSplit k; SampleCall SGamma key_prior;
              SampleCall SPoisson key_likelihood],
             Ok (Poisson_sample
                   (Poisson.mk (Gamma_sample (GammaPoisson._gamma self)
                                  key_prior sample_shape))
                   key_likelihood))).
Proof.
  intros Hsplit k sample_shape Hk key_prior key_likelihood.
  split; [apply Hsplit|]. repeat split; intros.
  - apply BetaBinomial_sample_trace; exact Hk.
  - apply DirichletMultinomial_sample_trace; exact Hk.
  - apply GammaPoisson_sample_trace; exact Hk.
Qed.


Lemma path_split_distinct (p : positive) :
  fst (path_split p) <> snd (path_split p).
Proof. intros H. discriminate H. Qed.

Lemma sample_splits_key_once_witness :
  (2 <> 3)%positive
  /\ BetaBinomial.sample positive R (fun _ => true) path_split
       (fun b k _ => Beta.concentration1 b) (fun b k => BinomialProbs.probs b)
       (beta_binomial 2 3 4) 1%positive []
     = ([RandomSplit 1%positive; SampleCall SBeta 2%positive;
         SampleCall SBinomialProbs 3%positive], Ok 2).
Proof.
  destruct (sample_splits_key_once positive R (list R) (fun _ => true) path_split
              path_split_distinct
              1%positive [] eq_refl) as [Hne [Hbb _]].
  split; [exact Hne|].
  exact (Hbb (fun b k _ => Beta.concentration1 b)
             (fun b k => BinomialProbs.probs b) (beta_binomial 2 3 4)).
Defined.

(** * The zero guard of [xlogy] and [xlog1py] *)

(** C9. Where [x == 0], [xlogy x y] is [0] for every [y], also at [y = 0]
    and [y < 0], where the unguarded product [0 * log y] is not a number;
    [xlog1py] has the same guard, with [log1p y] for [log y]; away from
    the guard both are the plain products. *)
Theorem xlogy_zero_guard :
  forall x : Xlogy.xreal,
    Xlogy.is_zero x = true ->
    (forall y, Xlogy.xlogy x y = Xlogy.Fin 0 /\ Xlogy.xlog1py x y = Xlogy.Fin 0)
    /\ Xlogy.xmul x (Xlogy.xlog (Xlogy.Fin 0)) = Xlogy.NaN
    /\ (forall r, r < 0 -> Xlogy.xmul x (Xlogy.xlog (Xlogy.Fin r)) = Xlogy.NaN)
    /\ (forall x' y, Xlogy.is_zero x' = false ->
          Xlogy.xlogy x' y = Xlogy.xmul x' (Xlogy.xlog y)
          /\ Xlogy.xlog1py x' y = Xlogy.xmul x' (Xlogy.xlog1p y)).
Proof.
  intros x Hx.
  assert (Ex : x = Xlogy.Fin 0).
  { destruct x as [r| | |]; try discriminate Hx.
    unfold Xlogy.is_zero, Req_b in Hx.
    destruct (Req_dec_T r 0) as [->|]; [reflexivity | discriminate Hx]. }
  subst x. repeat split.
  - unfold Xlogy.xlogy. rewrite Hx. reflexivity.
  - unfold Xlogy.xlog1py. rewrite Hx. reflexivity.
  - unfold Xlogy.xlog.
    destruct (Rlt_dec 0 0) as [H|_]; [lra|].
    destruct (Req_dec_T 0 0) as [_|H]; [|contradiction].
    cbn. destruct (Req_dec_T 0 0) as [_|H]; [reflexivity | contradiction].
  - intros r Hr. unfold Xlogy.xlog.
    destruct (Rlt_dec 0 r) as [H|_]; [lra|].
    destruct (Req_dec_T r 0) as [H|_]; [lra | reflexivity].
  - unfold Xlogy.xlogy. rewrite H. reflexivity.
  - unfold Xlogy.xlog1py. rewrite H. reflexivity.
Qed.

Lemma is_zero_0 : Xlogy.is_zero (Xlogy.Fin 0) = true.
Proof.
  unfold Xlogy.is_zero, Req_b.
  destruct (Req_dec_T 0 0) as [_|H]; [reflexivity | contradiction].
Qed.

Lemma xlogy_zero_guard_witness :
  Xlogy.xlogy (Xlogy.Fin 0) (Xlogy.Fin 0) = Xlogy.Fin 0
  /\ Xlogy.xlog1py (Xlogy.Fin 0) (Xlogy.Fin (-1)) = Xlogy.Fin 0.
Proof.
  destruct (xlogy_zero_guard (Xlogy.Fin 0) is_zero_0) as [H _].
  split; [apply (H (Xlogy.Fin 0)) | apply (H (Xlogy.Fin (-1)))].
Defined.

(** * Validation of the value given to [log_prob] *)

Lemma Rle_b_true (x y : R) : Rle_b x y = true <-> x <= y.
Proof. unfold Rle_b. destruct (Rle_dec x y); split; auto; discriminate. Qed.

Lemma Rlt_b_true (x y : R) : Rlt_b x y = true <-> x < y.
Proof. unfold Rlt_b. destruct (Rlt_dec x y); split; auto; discriminate. Qed.

Lemma Req_b_true (x y : R) : Req_b x y = true <-> x = y.
Proof. unfold Req_b. destruct (Req_dec_T x y); split; auto; discriminate. Qed.

Lemma frac_part_IZR (z : Z) : frac_part (IZR z) = 0.
Proof.
  assert (H : 0 <= 0 < 1) by lra.
  destruct (Int_part_frac_part_spec (IZR z) z 0 H) as [_ E]; [ring|].
  symmetry. exact E.
Qed.

Lemma is_integer_true (x : R) : constraints.is_integer x = true <-> integral x.
Proof.
  unfold constraints.is_integer. rewrite Req_b_true. split.
  - apply fp_nat.
  - intros [z ->]. apply frac_part_IZR.
Qed.

Lemma nonnegative_integer_true (x : R) :
  constraints.nonnegative_integer x = true <-> is_nonnegative_integer x.
Proof.
  unfold constraints.nonnegative_integer, is_nonnegative_integer.
  rewrite andb_true_iff, Rle_b_true, is_integer_true. reflexivity.
Qed.

Lemma integer_interval_true (lower upper x : R) :
  constraints.integer_interval lower upper x = true
  <-> in_integer_interval lower upper x.
Proof.
  unfold constraints.integer_interval, in_integer_interval.
  rewrite !andb_true_iff, !Rle_b_true, is_integer_true. tauto.
Qed.

Lemma multinomial_true (total : R) (x : list R) :
  constraints.multinomial total x = true <-> is_count_vector total x.
Proof.
  unfold constraints.multinomial, is_count_vector.
  rewrite andb_true_iff, Req_b_true, forallb_forall, Forall_forall.
  split; intros [H1 H2]; (split; [|exact H2]); intros v Hv;
    apply nonnegative_integer_true, H1, Hv.
Qed.

Lemma validate_sample_raises {S V : Type}
  (validate_args : S -> bool) (support : S -> V -> bool)
  (log_prob_fn : S -> V -> R) (in_support : S -> V -> Prop) :
  (forall self value, support self value = true <-> in_support self value) ->
  forall (self : S) (value : V),
    validate_args self = true ->
    (validate_sample validate_args support log_prob_fn self value
     = Raise ValidationError <-> ~ in_support self value)
    /\ (in_support self value ->
        validate_sample validate_args support log_prob_fn self value
        = Ok (log_prob_fn self value)).
Proof.
  intros Hs self value Hv. unfold validate_sample. rewrite Hv.
  specialize (Hs self value).
  destruct (support self value); cbn.
  - split.
    + split; [discriminate|]. intros Hn. exfalso. apply Hn, Hs. reflexivity.
    + reflexivity.
  - split.
    + split; [|reflexivity]. intros _ Hin. apply Hs in Hin. discriminate Hin.
    + intros Hin. apply Hs in Hin. discriminate Hin.
Qed.

(** C7. With argument validation enabled, [log_prob] of each compound
    distribution raises a validation failure exactly when the value is
    outside the support, and returns the log-density otherwise; the
    supports are the integers of [[0, total_count]] for [BetaBinomial],
    the vectors of nonnegative integers summing to [total_count] for
    [DirichletMultinomial], and the nonnegative integers for
    [GammaPoisson]. *)
Theorem validated_log_prob_raises_outside_support
  (gammaln : R -> R) (betaln : R -> R -> R) :
  (forall (self : BetaBinomial.t R) (value : R),
     BetaBinomial._validate_args self = true ->
     (BetaBinomial.validated_log_prob gammaln betaln self value
      = Raise ValidationError
      <-> ~ in_integer_interval 0 (BetaBinomial.total_count self) value)
     /\ (in_integer_interval 0 (BetaBinomial.total_count self) value ->
         BetaBinomial.validated_log_prob gammaln betaln self value
         = Ok (BetaBinomial.log_prob gammaln betaln self value)))
  /\ (forall (self : DirichletMultinomial.t (list R) R) (value : list R),
        DirichletMultinomial._validate_args self = true ->
        (DirichletMultinomial.validated_log_prob gammaln self value
         = Raise ValidationError
         <-> ~ is_count_vector (DirichletMultinomial.total_count self) value)
        /\ (is_count_vector (DirichletMultinomial.total_count self) value ->
            DirichletMultinomial.validated_log_prob gammaln self value
            = Ok (DirichletMultinomial.log_prob gammaln self value)))
  /\ (forall (self : GammaPoisson.t R) (value : R),
        GammaPoisson._validate_args self = true ->
        (GammaPoisson.validated_log_prob betaln self value
         = Raise ValidationError
         <-> ~ is_nonnegative_integer value)
        /\ (is_nonnegative_integer value ->
            GammaPoisson.validated_log_prob betaln self value
            = Ok (GammaPoisson.log_prob betaln self value))).
Proof.
  split; [|split]; intros self value Hv.
  - apply (validate_sample_raises BetaBinomial._validate_args BetaBinomial.support
             (BetaBinomial.log_prob gammaln betaln)
             (fun s v => in_integer_interval 0 (BetaBinomial.total_count s) v));
      [|exact Hv].
    intros s v. apply integer_interval_true.
  - apply (validate_sample_raises DirichletMultinomial._validate_args
             DirichletMultinomial.support
             (DirichletMultinomial.log_prob gammaln)
             (fun s v => is_count_vector (DirichletMultinomial.total_count s) v));
      [|exact Hv].
    intros s v. apply multinomial_true.
  - apply (validate_sample_raises GammaPoisson._validate_args GammaPoisson.support
             (GammaPoisson.log_prob betaln)
             (fun _ v => is_nonnegative_integer v)); [|exact Hv].
    intros s v. apply nonnegative_integer_true.
Qed.

Lemma validated_log_prob_raises_outside_support_witness :
  BetaBinomial.validated_log_prob LogGamma.lgamma lbeta
    (BetaBinomial.mk 2 3 4 (Beta.mk 2 3 []) [] true) (IZR 1)
  = Ok (BetaBinomial.log_prob LogGamma.lgamma lbeta
          (BetaBinomial.mk 2 3 4 (Beta.mk 2 3 []) [] true) (IZR 1))
  /\ BetaBinomial.validated_log_prob LogGamma.lgamma lbeta
       (BetaBinomial.mk 2 3 4 (Beta.mk 2 3 []) [] true) 5
     = Raise ValidationError.
Proof.
  destruct (validated_log_prob_raises_outside_support LogGamma.lgamma lbeta)
    as [Hbb _].
  split.
  - apply (Hbb (BetaBinomial.mk 2 3 4 (Beta.mk 2 3 []) [] true) (IZR 1) eq_refl).
    split; [cbn; lra | exists 1%Z; reflexivity].
  - apply (Hbb (BetaBinomial.mk 2 3 4 (Beta.mk 2 3 []) [] true) 5 eq_refl).
    intros [Hr _]. cbn in Hr. lra.
Defined.

(** * DirichletMultinomial: the density sums to one *)

Lemma Rsum_cons (a : R) (l : list R) : Rsum (a :: l) = a + Rsum l.
Proof. reflexivity. Qed.

Lemma Rsum_app (l m : list R) : Rsum (l ++ m) = Rsum l + Rsum m.
Proof.
  induction l as [|a l IH].
  - cbn [app]. unfold Rsum at 2. cbn. ring.
  - cbn [app]. rewrite !Rsum_cons, IH. ring.
Qed.

Lemma Rsum_map_scale {A : Type} (c : R) (f : A -> R) (l : list A) :
  Rsum (map (fun x => c * f x) l) = c * Rsum (map f l).
Proof.
  induction l as [|a l IH].
  - cbn. ring.
  - cbn [map]. rewrite !Rsum_cons, IH. ring.
Qed.

Lemma Rsum_flat_map {A B : Type} (g : A -> list B) (f : B -> R) (l : list A) :
  Rsum (map f (flat_map g l)) = Rsum (map (fun a => Rsum (map f (g a))) l).
Proof.
  induction l as [|a l IH]; [reflexivity|].
  cbn [flat_map map]. rewrite map_app, Rsum_app, Rsum_cons, IH. reflexivity.
Qed.

Lemma Rsum_seq (f : nat -> R) (n : nat) :
  Rsum (map f (seq 0 (S n))) = sum_f_R0 f n.
Proof.
  induction n as [|n IH].
  - cbn. ring.
  - rewrite seq_S, map_app, Rsum_app, IH. cbn. ring.
Qed.

Lemma rising_over_fact_step (x : R) (k : nat) :
  INR (S k) * rising_over_fact x (S k) = (x + INR k) * rising_over_fact x k.
Proof.
  cbn [rising_over_fact]. field.
  apply not_0_INR. discriminate.
Qed.

Lemma rising_over_fact_eq (x : R) (k : nat) :
  rising_over_fact x k = rising x k / INR (fact k).
Proof.
  induction k as [|k IH].
  - cbn. field.
  - cbn [rising_over_fact rising]. rewrite IH.
    rewrite fact_simpl, mult_INR.
    field. split; [apply INR_fact_neq_0 | apply not_0_INR; discriminate].
Qed.

Lemma rising_1 (k : nat) : rising 1 k = INR (fact k).
Proof.
  induction k as [|k IH]; [reflexivity|].
  cbn [rising]. rewrite IH, fact_simpl, mult_INR, S_INR. ring.
Qed.

Lemma sum_f_R0_shift (f : nat -> R) (n : nat) :
  sum_f_R0 (fun i => INR i * f i) (S n)
  = sum_f_R0 (fun i => INR (S i) * f (S i)) n.
Proof.
  rewrite decomp_sum by lia. cbn [pred]. change (INR 0) with 0. ring.
Qed.

Lemma rising_convolution_step (a b : R) (n : nat) :
  INR (S n)
  * sum_f_R0 (fun i => rising_over_fact a i * rising_over_fact b (S n - i)) (S n)
  = (a + b + INR n)
    * sum_f_R0 (fun i => rising_over_fact a i * rising_over_fact b (n - i)) n.
Proof.
  set (ca := rising_over_fact a). set (cb := rising_over_fact b).
  assert (E1 : INR (S n) * sum_f_R0 (fun i => ca i * cb (S n - i)%nat) (S n)
               = sum_f_R0 (fun i => INR i * (ca i * cb (S n - i)%nat)) (S n)
                 + sum_f_R0 (fun i => INR (S n - i) * cb (S n - i)%nat * ca i) (S n)).
  { rewrite scal_sum, <- sum_plus. apply sum_eq. intros i Hi.
    replace (INR (S n)) with (INR i + INR (S n - i)).
    - ring.
    - rewrite <- plus_INR. f_equal. lia. }
  assert (E2 : sum_f_R0 (fun i => INR i * (ca i * cb (S n - i)%nat)) (S n)
               = sum_f_R0 (fun i => (a + INR i) * (ca i * cb (n - i)%nat)) n).
  { rewrite (sum_f_R0_shift (fun i => ca i * cb (S n - i)%nat)).
    apply sum_eq. intros i Hi. cbn [Nat.sub].
    rewrite <- Rmult_assoc. unfold ca at 1.
    rewrite rising_over_fact_step. fold ca. ring. }
  assert (E3 : sum_f_R0 (fun i => INR (S n - i) * cb (S n - i)%nat * ca i) (S n)
               = sum_f_R0 (fun i => (b + INR (n - i)) * (ca i * cb (n - i)%nat)) n).
  { rewrite tech5, Nat.sub_diag. change (INR 0) with 0.
    rewrite !Rmult_0_l, Rplus_0_r.
    apply sum_eq. intros i Hi.
    replace (S n - i)%nat with (S (n - i)) by lia.
    unfold cb at 1. rewrite rising_over_fact_step. fold cb. ring. }
  rewrite E1, E2, E3, <- sum_plus, scal_sum.
  apply sum_eq. intros i Hi.
  replace (INR n) with (INR i + INR (n - i)).
  - ring.
  - rewrite <- plus_INR. f_equal. lia.
Qed.

(** Vandermonde's identity for rising factorials. *)
Lemma rising_vandermonde (a b : R) (n : nat) :
  sum_f_R0 (fun i => rising_over_fact a i * rising_over_fact b (n - i)) n
  = rising_over_fact (a + b) n.
Proof.
  induction n as [|n IH]; [cbn; ring|].
  apply Rmult_eq_reg_l with (INR (S n)); [|apply not_0_INR; discriminate].
  rewrite rising_convolution_step, IH, rising_over_fact_step. reflexivity.
Qed.

Lemma rising_over_fact_0 (k : nat) : rising_over_fact 0 (S k) = 0.
Proof.
  induction k as [|k IH].
  - cbn. field.
  - cbn [rising_over_fact] in *. rewrite IH. unfold Rdiv. ring.
Qed.

Lemma compositions_weight_sum (alpha : list R) (n : nat) :
  Rsum (map (composition_weight alpha) (compositions (length alpha) n))
  = rising_over_fact (Rsum alpha) n.
Proof.
  revert n. induction alpha as [|a alpha IH]; intros n.
  - destruct n as [|n].
    + cbn. ring.
    + cbn [length compositions map]. unfold Rsum at 2. cbn [fold_right].
      rewrite rising_over_fact_0. reflexivity.
  - cbn [length compositions]. rewrite Rsum_flat_map.
    rewrite Rsum_cons, <- rising_vandermonde, <- Rsum_seq.
    f_equal. apply map_ext. intros i.
    rewrite map_map. cbn [composition_weight].
    rewrite Rsum_map_scale, IH. reflexivity.
Qed.

Lemma compositions_In (k n : nat) (x : list nat) :
  In x (compositions k n) <-> length x = k /\ list_sum x = n.
Proof.
  revert n x. induction k as [|k IH]; intros n x.
  - destruct n as [|n]; cbn.
    + split.
      * intros [<-|[]]. split; reflexivity.
      * intros [Hl _]. left. destruct x; [reflexivity | discriminate Hl].
    + split; [intros []|].
      intros [Hl Hs]. destruct x; [discriminate Hs | discriminate Hl].
  - cbn [compositions]. rewrite in_flat_map. split.
    + intros [i [Hi Hx]]. apply in_map_iff in Hx. destruct Hx as [y [<- Hy]].
      apply IH in Hy. destruct Hy as [Hl Hs]. apply in_seq in Hi.
      split; [cbn [length]; congruence|].
      change (list_sum (i :: y)) with (i + list_sum y)%nat. lia.
    + intros [Hl Hs]. destruct x as [|i y]; [discriminate Hl|].
      cbn [length] in Hl.
      change (list_sum (i :: y)) with (i + list_sum y)%nat in Hs.
      exists i. split.
      * apply in_seq. lia.
      * apply in_map. apply IH. split; [congruence | lia].
Qed.

Lemma compositions_NoDup (k n : nat) : NoDup (compositions k n).
Proof.
  revert n. induction k as [|k IH]; intros n.
  - destruct n; cbn; repeat constructor. intros [].
  - cbn [compositions].
    assert (H : forall l, NoDup l ->
              NoDup (flat_map (fun i => map (cons i) (compositions k (n - i))) l)).
    { induction l as [|i l IHl]; intros Hl; [constructor|].
      cbn [flat_map]. inversion Hl as [|? ? Hni Hl']; subst.
      apply NoDup_app.
      - apply Injective_map_NoDup; [|apply IH].
        intros y z E. congruence.
      - apply IHl, Hl'.
      - intros x Hx Hx'. apply in_map_iff in Hx. destruct Hx as [y [<- _]].
        apply in_flat_map in Hx'. destruct Hx' as [j [Hj Hy]].
        apply in_map_iff in Hy. destruct Hy as [z [E _]].
        apply Hni. congruence. }
    apply H, seq_NoDup.
Qed.

Lemma Rsum_map_INR (x : list nat) : Rsum (map INR x) = INR (list_sum x).
Proof.
  induction x as [|i x IH]; [reflexivity|].
  change (list_sum (i :: x)) with (i + list_sum x)%nat.
  cbn [map]. rewrite Rsum_cons, IH, plus_INR. reflexivity.
Qed.

Lemma Rsum_pos (alpha : list R) :
  alpha <> [] -> Forall (fun a => 0 < a) alpha -> 0 < Rsum alpha.
Proof.
  intros Hne Hpos. destruct alpha as [|a alpha]; [contradiction|].
  clear Hne. revert a Hpos. induction alpha as [|b alpha IH]; intros a Hpos.
  - inversion Hpos; subst. unfold Rsum. cbn. lra.
  - inversion Hpos as [|? ? Ha Hrest]; subst.
    rewrite Rsum_cons. specialize (IH b Hrest). lra.
Qed.

Section DirichletMultinomialDensity.
Variable gammaln : R -> R.
Hypothesis gammaln_ok : gammaln_laws gammaln.

Lemma log_beta_1_count (a : R) (k : nat) :
  0 < a ->
  _log_beta_1 gammaln a (INR k) = ln (INR (fact k)) - ln (rising a k).
Proof.
  intros Ha. unfold _log_beta_1.
  rewrite (gammaln_shift gammaln gammaln_ok 1 k) by lra.
  replace (INR k + a) with (a + INR k) by ring.
  rewrite (gammaln_shift gammaln gammaln_ok a k) by exact Ha.
  rewrite (gammaln_1 gammaln gammaln_ok), rising_1. ring.
Qed.

Lemma exp_log_beta_1_count (a : R) (k : nat) :
  0 < a ->
  exp (- _log_beta_1 gammaln a (INR k)) = rising_over_fact a k.
Proof.
  intros Ha. rewrite log_beta_1_count by exact Ha.
  replace (- (ln (INR (fact k)) - ln (rising a k)))
    with (ln (rising a k) - ln (INR (fact k))) by ring.
  unfold Rminus. rewrite exp_plus, exp_Ropp.
  rewrite !exp_ln; [| apply INR_fact_lt_0 | apply rising_pos, Ha].
  rewrite rising_over_fact_eq. reflexivity.
Qed.

Lemma exp_categories (alpha : list R) (x : list nat) :
  Forall (fun a => 0 < a) alpha -> length x = length alpha ->
  exp (- Rsum (map2 (_log_beta_1 gammaln) alpha (map INR x)))
  = composition_weight alpha x.
Proof.
  intros Hpos. revert x. induction Hpos as [|a alpha Ha Hpos IH]; intros x Hl.
  - destruct x; [|discriminate Hl]. cbn. unfold Rsum. cbn.
    rewrite Ropp_0. apply exp_0.
  - destruct x as [|i x]; [discriminate Hl|].
    cbn [map map2 composition_weight]. rewrite Rsum_cons.
    rewrite Ropp_plus_distr, exp_plus, exp_log_beta_1_count by exact Ha.
    rewrite IH by (cbn in Hl; congruence). reflexivity.
Qed.

Lemma DirichletMultinomial_exp_log_prob
  (self : DirichletMultinomial.t (list R) R) (x : list nat) :
  let alpha := DirichletMultinomial.concentration self in
  alpha <> [] -> Forall (fun a => 0 < a) alpha -> length x = length alpha ->
  exp (DirichletMultinomial.log_prob gammaln self (map INR x))
  = INR (fact (list_sum x)) / rising (Rsum alpha) (list_sum x)
    * composition_weight alpha x.
Proof.
  intros alpha Hne Hpos Hl. unfold DirichletMultinomial.log_prob. fold alpha.
  unfold Rminus at 1. rewrite exp_plus, exp_categories by assumption.
  f_equal. rewrite Rsum_map_INR.
  pose proof (Rsum_pos alpha Hne Hpos) as HA.
  rewrite log_beta_1_count by exact HA.
  unfold Rminus. rewrite exp_plus, exp_Ropp.
  rewrite !exp_ln; [reflexivity | apply rising_pos, HA | apply INR_fact_lt_0].
Qed.

Lemma DirichletMultinomial_sums_to_one
  (self : DirichletMultinomial.t (list R) R) (n : nat) :
  let alpha := DirichletMultinomial.concentration self in
  alpha <> [] -> Forall (fun a => 0 < a) alpha ->
  Rsum (map (fun x => exp (DirichletMultinomial.log_prob gammaln self (map INR x)))
            (compositions (length alpha) n)) = 1.
Proof.
  intros alpha Hne Hpos.
  pose proof (Rsum_pos alpha Hne Hpos) as HA.
  rewrite (map_ext_in _
             (fun x => INR (fact n) / rising (Rsum alpha) n
                       * composition_weight alpha x)).
  - rewrite Rsum_map_scale, compositions_weight_sum, rising_over_fact_eq.
    field. split; [apply INR_fact_neq_0|].
    apply Rgt_not_eq, rising_pos, HA.
  - intros x Hx. apply compositions_In in Hx. destruct Hx as [Hl Hs].
    rewrite DirichletMultinomial_exp_log_prob by assumption.
    fold alpha. rewrite Hs. reflexivity.
Qed.

End DirichletMultinomialDensity.

Lemma Rsum_nonneg (value : list R) :
  Forall is_nonnegative_integer value -> 0 <= Rsum value.
Proof.
  induction 1 as [|v value [Hv _] _ IH]; [unfold Rsum; cbn; lra|].
  rewrite Rsum_cons. lra.
Qed.

Lemma DirichletMultinomial_arguments_positive (alpha value : list R) :
  alpha <> [] -> Forall (fun a => 0 < a) alpha ->
  Forall is_nonnegative_integer value ->
  Forall (fun t => 0 < t) (DirichletMultinomial_gammaln_arguments alpha value).
Proof.
  intros Hne Hpos Hval.
  pose proof (Rsum_pos alpha Hne Hpos) as HA.
  pose proof (Rsum_nonneg value Hval) as HV.
  unfold DirichletMultinomial_gammaln_arguments. apply Forall_app. split.
  - unfold _log_beta_1_arguments. repeat constructor; lra.
  - clear Hne HA HV. revert value Hval.
    induction Hpos as [|a alpha Ha Hpos IH]; intros value Hval.
    + constructor.
    + destruct Hval as [|v value [Hv _] Hval]; [constructor|].
      cbn [map2 concat]. apply Forall_app. split.
      * unfold _log_beta_1_arguments. repeat constructor; lra.
      * apply IH, Hval.
Qed.

(** C2. For a concentration vector [alpha] with all entries positive,
    [DirichletMultinomial.log_prob] at [value] is
    [logBetaCount (sum alpha, sum value)] less the sum over the categories
    of [logBetaCount (alpha_i, value_i)]; at every valid value (nonnegative
    integers summing to [total_count]) the logarithm of the Gamma function
    is only taken of positive numbers, so the result is finite; and
    [exp (log_prob)] summed over the count vectors of [total_count] is
    [1], for every number of categories and every [total_count], among
    them 2 categories and [total_count = 3].  [compositions k n] lists
    each such count vector once ([compositions_In],
    [compositions_NoDup]). *)
Theorem DirichletMultinomial_log_prob_normalised (gammaln : R -> R) :
  gammaln_laws gammaln ->
  forall self : DirichletMultinomial.t (list R) R,
    let alpha := DirichletMultinomial.concentration self in
    alpha <> [] -> Forall (fun a => 0 < a) alpha ->
    (forall value : list R,
       DirichletMultinomial.log_prob gammaln self value
       = logBetaCount gammaln (Rsum alpha) (Rsum value)
         - Rsum (map2 (logBetaCount gammaln) alpha value))
    /\ (forall value : list R,
          length value = length alpha ->
          is_count_vector (DirichletMultinomial.total_count self) value ->
          Forall (fun t => 0 < t)
                 (DirichletMultinomial_gammaln_arguments alpha value))
    /\ (forall n : nat,
          DirichletMultinomial.total_count self = INR n ->
          Rsum (map (fun x => exp (DirichletMultinomial.log_prob gammaln self
                                     (map INR x)))
                    (compositions (length alpha) n)) = 1).
Proof.
  intros Hg self alpha Hne Hpos. split; [|split].
  - intros value. reflexivity.
  - intros value _ [Hval _].
    apply DirichletMultinomial_arguments_positive; assumption.
  - intros n _. apply (DirichletMultinomial_sums_to_one gammaln Hg self n);
      assumption.
Qed.


Lemma DirichletMultinomial_log_prob_normalised_witness :
  Rsum (map (fun x => exp (DirichletMultinomial.log_prob LogGamma.lgamma
                             (dirichlet_multinomial [1; 2] 3) (map INR x)))
            [[0; 3]; [1; 2]; [2; 1]; [3; 0]]%nat) = 1.
Proof.
  assert (Hne : [1; 2] <> @nil R) by discriminate.
  assert (Hpos : Forall (fun a => 0 < a) [1; 2]) by (repeat constructor; lra).
  destruct (DirichletMultinomial_log_prob_normalised LogGamma.lgamma lgamma_laws
              (dirichlet_multinomial [1; 2] 3) Hne Hpos) as [_ [_ H]].
  apply (H 3%nat). cbn. ring.
Defined.

(** * Welford's running covariance is the sample covariance *)

Module WelfordFacts.
Import Welford.


Lemma Rsum_nil : Rsum [] = 0.
Proof. reflexivity. Qed.

Lemma total_snoc (f : vec -> R) (xs : list vec) (x : vec) :
  total f (xs ++ [x]) = total f xs + f x.
Proof.
  unfold total. rewrite map_app, Rsum_app. cbn [map].
  rewrite Rsum_cons, Rsum_nil. ring.
Qed.

Lemma average_nil (f : vec -> R) : average f [] = 0.
Proof. unfold average, total, Rsum, Rdiv. cbn. ring. Qed.

Lemma average_snoc (f : vec -> R) (xs : list vec) (x : vec) :
  average f (xs ++ [x])
  = average f xs + / INR (S (length xs)) * (f x - average f xs).
Proof.
  destruct xs as [|x0 xs].
  - rewrite average_nil. unfold average. rewrite total_snoc.
    unfold total, Rsum. cbn. field.
  - unfold average. rewrite total_snoc, length_app.
    cbn [length]. replace (S (length xs) + 1)%nat with (S (S (length xs))) by lia.
    set (k := S (length xs)).
    assert (Hk : INR k <> 0) by (apply not_0_INR; discriminate).
    assert (Hk' : INR (S k) <> 0) by (apply not_0_INR; discriminate).
    rewrite (S_INR k) in *. field. split; assumption.
Qed.

Lemma centred_products (f g : vec -> R) (a b : R) (xs : list vec) :
  Rsum (map (fun x => (f x - a) * (g x - b)) xs)
  = total (fun x => f x * g x) xs - a * total g xs - b * total f xs
    + INR (length xs) * a * b.
Proof.
  unfold total. induction xs as [|x xs IH].
  - cbn. unfold Rsum. cbn. ring.
  - cbn [map length]. rewrite !Rsum_cons, IH, S_INR. ring.
Qed.

Lemma comoment_expand (f g : vec -> R) (xs : list vec) :
  comoment f g xs
  = total (fun x => f x * g x) xs
    - total f xs * total g xs / INR (length xs).
Proof.
  unfold comoment. rewrite centred_products. unfold average.
  destruct xs as [|x xs].
  - unfold total, Rsum, Rdiv. cbn. ring.
  - field. apply not_0_INR. discriminate.
Qed.

Lemma comoment_snoc (f g : vec -> R) (xs : list vec) (x : vec) :
  comoment f g (xs ++ [x])
  = comoment f g xs + (f x - average f xs) * (g x - average g (xs ++ [x])).
Proof.
  rewrite average_snoc, !comoment_expand.
  destruct xs as [|x0 xs].
  - rewrite !average_nil. unfold total, Rsum, Rdiv. cbn.
    rewrite Rinv_1. ring.
  - unfold average. rewrite !total_snoc, length_app.
    cbn [length]. replace (S (length xs) + 1)%nat with (S (S (length xs))) by lia.
    set (k := S (length xs)).
    assert (Hk : INR k <> 0) by (apply not_0_INR; discriminate).
    assert (Hk' : INR (S k) <> 0) by (apply not_0_INR; discriminate).
    rewrite (S_INR k) in *. field. split; assumption.
Qed.


Lemma map2_map {A B C D : Type} (g : B -> C -> D) (F : A -> B) (G : A -> C)
  (l : list A) :
  map2 g (map F l) (map G l) = map (fun i => g (F i) (G i)) l.
Proof. induction l as [|a l IH]; cbn; [reflexivity | rewrite IH; reflexivity]. Qed.

Lemma tab_length (d : nat) (F : nat -> R) : length (tab d F) = d.
Proof. unfold tab. rewrite length_map, length_seq. reflexivity. Qed.

Lemma tab_ext (d : nat) (F G : nat -> R) :
  (forall i, (i < d)%nat -> F i = G i) -> tab d F = tab d G.
Proof.
  intros H. apply map_ext_in. intros i Hi. apply in_seq in Hi. apply H. lia.
Qed.

Lemma tab2_ext (d : nat) (F G : nat -> nat -> R) :
  (forall i j, (i < d)%nat -> (j < d)%nat -> F i j = G i j) ->
  tab2 d F = tab2 d G.
Proof.
  intros H. apply map_ext_in. intros i Hi. apply in_seq in Hi.
  apply tab_ext. intros j Hj. apply H; lia.
Qed.

Lemma tab_coord (d : nat) (x : vec) : length x = d -> x = tab d (fun i => coord i x).
Proof.
  intros Hx. unfold tab, coord. apply nth_ext with (d := 0) (d' := 0).
  - rewrite length_map, length_seq. exact Hx.
  - intros i Hi.
    rewrite (nth_indep (map (fun i => nth i x 0) (seq 0 d)) 0
               ((fun i => nth i x 0) 0%nat))
      by (rewrite length_map, length_seq; lia).
    rewrite (map_nth (fun i => nth i x 0)), seq_nth by lia. reflexivity.
Qed.

Lemma zeros_tab (d : nat) : zeros d = tab d (fun _ => 0).
Proof.
  unfold zeros, tab. generalize 0%nat as s.
  induction d as [|d IH]; intros s; cbn; [reflexivity | rewrite <- IH; reflexivity].
Qed.

Lemma repeat_tab (c : R) (d : nat) : repeat c d = tab d (fun _ => c).
Proof.
  unfold tab. generalize 0%nat as s.
  induction d as [|d IH]; intros s; cbn; [reflexivity | rewrite <- IH; reflexivity].
Qed.

Lemma mzeros_tab2 (d : nat) : mzeros d = tab2 d (fun _ _ => 0).
Proof.
  unfold mzeros, tab2. rewrite <- zeros_tab. generalize 0%nat as s.
  generalize (zeros d) as z.
  induction d as [|d IH]; intros z s; cbn; [reflexivity | rewrite <- IH; reflexivity].
Qed.

Lemma identity_tab2 (d : nat) :
  identity d = tab2 d (fun i j => if Nat.eqb i j then 1 else 0).
Proof. reflexivity. Qed.

Lemma vadd_tab (d : nat) (F G : nat -> R) :
  vadd (tab d F) (tab d G) = tab d (fun i => F i + G i).
Proof. apply map2_map. Qed.

Lemma vsub_tab (d : nat) (F G : nat -> R) :
  vsub (tab d F) (tab d G) = tab d (fun i => F i - G i).
Proof. apply map2_map. Qed.

Lemma vmul_tab (d : nat) (F G : nat -> R) :
  vmul (tab d F) (tab d G) = tab d (fun i => F i * G i).
Proof. apply map2_map. Qed.

Lemma vscale_tab (c : R) (d : nat) (F : nat -> R) :
  vscale c (tab d F) = tab d (fun i => c * F i).
Proof. unfold vscale, tab. apply map_map. Qed.

Lemma outer_tab (d : nat) (F G : nat -> R) :
  outer (tab d F) (tab d G) = tab2 d (fun i j => F i * G j).
Proof.
  unfold outer, tab2, tab. rewrite map_map. apply map_ext. intros i.
  apply map_map.
Qed.

Lemma madd_tab2 (d : nat) (F G : nat -> nat -> R) :
  madd (tab2 d F) (tab2 d G) = tab2 d (fun i j => F i j + G i j).
Proof.
  unfold madd, tab2. rewrite map2_map. apply map_ext. intros i. apply vadd_tab.
Qed.

Lemma mscale_tab2 (c : R) (d : nat) (F : nat -> nat -> R) :
  mscale c (tab2 d F) = tab2 d (fun i j => c * F i j).
Proof.
  unfold mscale, tab2. rewrite map_map. apply map_ext. intros i. apply vscale_tab.
Qed.

Lemma vsub_coord (d : nat) (x : vec) (G : nat -> R) :
  length x = d -> vsub x (tab d G) = tab d (fun i => coord i x - G i).
Proof. intros Hx. rewrite (tab_coord d x Hx) at 1. apply vsub_tab. Qed.

(** One [update] on tabulated states. *)
Lemma update_fn_diagonal (d k : nat) (M C : nat -> R) (x : vec) :
  length x = d ->
  update_fn true x (mk_state (diagonal := true) k (tab d M) (tab d C))
  = mk_state (diagonal := true) (S k)
      (tab d (fun i => M i + / INR (S k) * (coord i x - M i)))
      (tab d (fun i => C i + (coord i x - M i)
                             * (coord i x - (M i + / INR (S k) * (coord i x - M i))))).
Proof.
  intros Hx. unfold update_fn. cbn [count mean m2].
  rewrite (vsub_coord d x M Hx), vscale_tab, vadd_tab.
  rewrite (vsub_coord d x _ Hx), vmul_tab, vadd_tab. reflexivity.
Qed.

Lemma update_fn_dense (d k : nat) (M : nat -> R) (C : nat -> nat -> R) (x : vec) :
  length x = d ->
  update_fn false x (mk_state (diagonal := false) k (tab d M) (tab2 d C))
  = mk_state (diagonal := false) (S k)
      (tab d (fun i => M i + / INR (S k) * (coord i x - M i)))
      (tab2 d (fun i j => C i j + (coord i x - M i)
                                  * (coord j x - (M j + / INR (S k) * (coord j x - M j))))).
Proof.
  intros Hx. unfold update_fn. cbn [count mean m2].
  rewrite (vsub_coord d x M Hx), vscale_tab, vadd_tab.
  rewrite (vsub_coord d x _ Hx), outer_tab, madd_tab2. reflexivity.
Qed.

Lemma run_snoc (diagonal : bool) (d : nat) (xs : list vec) (x : vec) :
  run diagonal d (xs ++ [x]) = update_fn diagonal x (run diagonal d xs).
Proof. unfold run. rewrite fold_left_app. reflexivity. Qed.

Lemma comoment_nil (f g : vec -> R) : comoment f g [] = 0.
Proof. reflexivity. Qed.

Lemma length_snoc {A : Type} (xs : list A) (x : A) :
  length (xs ++ [x]) = S (length xs).
Proof. rewrite length_app. cbn. lia. Qed.

(** The state after the samples [xs]: their number, their mean, and their
    centred second moments. *)
Lemma run_diagonal (d : nat) (xs : list vec) :
  Forall (fun x => length x = d) xs ->
  run true d xs
  = mk_state (diagonal := true) (length xs)
      (tab d (fun i => average (coord i) xs))
      (tab d (fun i => comoment (coord i) (coord i) xs)).
Proof.
  induction xs as [|x xs IH] using rev_ind; intros Hxs.
  - unfold run, init_fn. cbn [fold_left length]. rewrite zeros_tab. f_equal.
    apply tab_ext. intros i _. rewrite average_nil. reflexivity.
  - apply Forall_app in Hxs. destruct Hxs as [Hxs Hx].
    pose proof (Forall_inv Hx) as Hlen. cbn beta in Hlen.
    rewrite run_snoc, (IH Hxs), update_fn_diagonal by exact Hlen.
    rewrite length_snoc. f_equal.
    + apply tab_ext. intros i _. rewrite average_snoc. reflexivity.
    + apply tab_ext. intros i _. rewrite comoment_snoc, average_snoc.
      reflexivity.
Qed.

Lemma run_dense (d : nat) (xs : list vec) :
  Forall (fun x => length x = d) xs ->
  run false d xs
  = mk_state (diagonal := false) (length xs)
      (tab d (fun i => average (coord i) xs))
      (tab2 d (fun i j => comoment (coord i) (coord j) xs)).
Proof.
  induction xs as [|x xs IH] using rev_ind; intros Hxs.
  - unfold run, init_fn. cbn [fold_left length]. rewrite zeros_tab, mzeros_tab2.
    f_equal. apply tab_ext. intros i _. rewrite average_nil. reflexivity.
  - apply Forall_app in Hxs. destruct Hxs as [Hxs Hx].
    pose proof (Forall_inv Hx) as Hlen. cbn beta in Hlen.
    rewrite run_snoc, (IH Hxs), update_fn_dense by exact Hlen.
    rewrite length_snoc. f_equal.
    + apply tab_ext. intros i _. rewrite average_snoc. reflexivity.
    + apply tab2_ext. intros i j _ _. rewrite comoment_snoc, average_snoc.
      reflexivity.
Qed.

(** The spec's sample mean and covariance, tabulated. *)
Lemma vsum_map_tab (d : nat) (g : vec -> nat -> R) (xs : list vec) :
  vsum d (map (fun x => tab d (g x)) xs)
  = tab d (fun i => Rsum (map (fun x => g x i) xs)).
Proof.
  induction xs as [|x xs IH].
  - cbn [map vsum fold_right]. apply zeros_tab.
  - cbn [map]. unfold vsum in *. cbn [fold_right]. rewrite IH, vadd_tab.
    reflexivity.
Qed.

Lemma msum_map_tab2 (d : nat) (g : vec -> nat -> nat -> R) (xs : list vec) :
  msum d (map (fun x => tab2 d (g x)) xs)
  = tab2 d (fun i j => Rsum (map (fun x => g x i j) xs)).
Proof.
  induction xs as [|x xs IH].
  - cbn [map msum fold_right]. apply mzeros_tab2.
  - cbn [map]. unfold msum in *. cbn [fold_right]. rewrite IH, madd_tab2.
    reflexivity.
Qed.

Lemma sample_mean_tab (d : nat) (xs : list vec) :
  Forall (fun x => length x = d) xs ->
  sample_mean d xs = tab d (fun i => average (coord i) xs).
Proof.
  intros Hxs. unfold sample_mean.
  replace xs with (map (fun x => tab d (fun i => coord i x)) xs) at 2.
  - rewrite vsum_map_tab, vscale_tab. apply tab_ext. intros i _.
    unfold average, total, Rdiv. apply Rmult_comm.
  - rewrite <- (map_id xs) at 2. apply map_ext_in. intros x Hx.
    symmetry. apply tab_coord. rewrite Forall_forall in Hxs. apply Hxs, Hx.
Qed.

Lemma sample_variance_tab (d : nat) (xs : list vec) :
  Forall (fun x => length x = d) xs ->
  sample_variance d xs
  = tab d (fun i => / (INR (length xs) - 1) * comoment (coord i) (coord i) xs).
Proof.
  intros Hxs. unfold sample_variance. rewrite (sample_mean_tab d xs Hxs).
  rewrite (map_ext_in _
             (fun x => tab d (fun i => (coord i x - average (coord i) xs)
                                       * (coord i x - average (coord i) xs)))).
  - rewrite vsum_map_tab, vscale_tab. reflexivity.
  - intros x Hx. rewrite Forall_forall in Hxs.
    rewrite (vsub_coord d x _ (Hxs x Hx)), vmul_tab. reflexivity.
Qed.

Lemma sample_covariance_tab2 (d : nat) (xs : list vec) :
  Forall (fun x => length x = d) xs ->
  sample_covariance d xs
  = tab2 d (fun i j => / (INR (length xs) - 1) * comoment (coord i) (coord j) xs).
Proof.
  intros Hxs. unfold sample_covariance. rewrite (sample_mean_tab d xs Hxs).
  rewrite (map_ext_in _
             (fun x => tab2 d (fun i j => (coord i x - average (coord i) xs)
                                          * (coord j x - average (coord j) xs)))).
  - rewrite msum_map_tab2, mscale_tab2. reflexivity.
  - intros x Hx. rewrite Forall_forall in Hxs.
    rewrite (vsub_coord d x _ (Hxs x Hx)), outer_tab. reflexivity.
Qed.

End WelfordFacts.

(** C8. For [n >= 2] samples, [init], one [update] per sample and
    [finalize] without regularisation give the unbiased sample covariance:
    the sum over the samples of the outer product of [sample - sample mean]
    with itself, over [n - 1] (the elementwise squares in diagonal mode);
    with regularisation the result is
    [cov * n / (n + 5) + 1e-3 * (5 / (n + 5)) * I], with a vector of ones
    for [I] in diagonal mode. *)
Theorem welford_covariance_is_sample_covariance :
  forall (size : nat) (samples : list Welford.vec),
    Forall (fun x => length x = size) samples ->
    (2 <= length samples)%nat ->
    let n := INR (length samples) in
    Welford.final_fn true (Welford.run true size samples) false
    = Welford.sample_variance size samples
    /\ Welford.final_fn false (Welford.run false size samples) false
       = Welford.sample_covariance size samples
    /\ Welford.final_fn true (Welford.run true size samples) true
       = Welford.vadd
           (Welford.vscale (n / (n + 5)) (Welford.sample_variance size samples))
           (Welford.vscale (1 / 1000 * (5 / (n + 5))) (repeat 1 size))
    /\ Welford.final_fn false (Welford.run false size samples) true
       = Welford.madd
           (Welford.mscale (n / (n + 5)) (Welford.sample_covariance size samples))
           (Welford.mscale (1 / 1000 * (5 / (n + 5))) (Welford.identity size)).
Proof.
  intros size samples Hlen _ n.
  rewrite (WelfordFacts.sample_variance_tab size samples Hlen).
  rewrite (WelfordFacts.sample_covariance_tab2 size samples Hlen).
  rewrite (WelfordFacts.run_diagonal size samples Hlen).
  rewrite (WelfordFacts.run_dense size samples Hlen).
  unfold Welford.final_fn. cbn [Welford.count Welford.mean Welford.m2].
  rewrite WelfordFacts.tab_length, WelfordFacts.vscale_tab,
    WelfordFacts.mscale_tab2.
  repeat split; reflexivity.
Qed.

Lemma welford_covariance_is_sample_covariance_witness :
  Welford.final_fn true (Welford.run true 1 [[1]; [3]]) false
  = Welford.sample_variance 1 [[1]; [3]].
Proof.
  assert (Hlen : Forall (fun x : Welford.vec => length x = 1%nat) [[1]; [3]])
    by (repeat constructor).
  apply (welford_covariance_is_sample_covariance 1 [[1]; [3]] Hlen).
  cbn. lia.
Defined.

Example welford_two_samples :
  Welford.final_fn true (Welford.run true 1 [[1]; [3]]) false = [2].
Proof.
  unfold Welford.run, Welford.final_fn, Welford.update_fn, Welford.init_fn.
  cbn. f_equal. field.
Qed.

(** * Constructors: batch shapes and stored parameters *)

Ltac broadcast_dim_cases :=
  unfold broadcast_dim in *;
  repeat match goal with
         | H : context [Nat.eqb ?x ?y] |- _ => destruct (Nat.eqb_spec x y)
         | |- context [Nat.eqb ?x ?y] => destruct (Nat.eqb_spec x y)
         end;
  subst; try discriminate;
  repeat match goal with
         | H : Some _ = Some _ |- _ => injection H as H; subst
         end;
  repeat split; try reflexivity; try congruence; try lia.

Lemma broadcast_dim_refl (a : nat) : broadcast_dim a a = Some a.
Proof. unfold broadcast_dim. rewrite Nat.eqb_refl. reflexivity. Qed.

Lemma broadcast_dim_absorb (a b d : nat) :
  broadcast_dim a b = Some d ->
  broadcast_dim a d = Some d /\ broadcast_dim b d = Some d
  /\ broadcast_dim d a = Some d /\ broadcast_dim d b = Some d.
Proof. intros H. broadcast_dim_cases. Qed.

Lemma broadcast_rev_refl (s : list nat) : broadcast_rev s s = Some s.
Proof.
  induction s as [|a s IH]; [reflexivity|].
  cbn. rewrite broadcast_dim_refl, IH. reflexivity.
Qed.

Lemma broadcast_rev_nil_r (s : list nat) : broadcast_rev s [] = Some s.
Proof. destruct s; reflexivity. Qed.

Lemma broadcast_rev_absorb (s t r : list nat) :
  broadcast_rev s t = Some r ->
  broadcast_rev s r = Some r /\ broadcast_rev t r = Some r
  /\ broadcast_rev r s = Some r /\ broadcast_rev r t = Some r.
Proof.
  revert t r. induction s as [|a s IH]; intros t r H.
  - cbn in H. injection H as <-.
    rewrite broadcast_rev_refl, broadcast_rev_nil_r. auto.
  - destruct t as [|b t].
    + cbn in H. injection H as <-.
      rewrite broadcast_rev_refl. cbn [broadcast_rev]. auto.
    + cbn in H.
      destruct (broadcast_dim a b) as [d|] eqn:Ed; [|discriminate].
      destruct (broadcast_rev s t) as [r'|] eqn:Er; [|discriminate].
      injection H as <-.
      destruct (broadcast_dim_absorb a b d Ed) as [D1 [D2 [D3 D4]]].
      destruct (IH t r' Er) as [R1 [R2 [R3 R4]]].
      cbn. rewrite D1, D2, D3, D4, R1, R2, R3, R4. auto.
Qed.

Lemma broadcast_dim_trans (a b c : nat) :
  broadcast_dim a b = Some b -> broadcast_dim b c = Some c ->
  broadcast_dim a c = Some c.
Proof. intros H1 H2. broadcast_dim_cases. Qed.

Lemma broadcast_rev_trans (s t r : list nat) :
  broadcast_rev s t = Some t -> broadcast_rev t r = Some r ->
  broadcast_rev s r = Some r.
Proof.
  revert t r. induction s as [|a s IH]; intros t r Hst Htr; [reflexivity|].
  destruct t as [|b t]; [discriminate Hst|].
  destruct r as [|c r]; [discriminate Htr|].
  cbn in Hst, Htr |- *.
  destruct (broadcast_dim a b) as [d|] eqn:Ed; [|discriminate].
  destruct (broadcast_rev s t) as [t'|] eqn:Et; [|discriminate].
  injection Hst as -> ->.
  destruct (broadcast_dim b c) as [d'|] eqn:Ed'; [|discriminate].
  destruct (broadcast_rev t r) as [r'|] eqn:Er; [|discriminate].
  injection Htr as -> ->.
  rewrite (broadcast_dim_trans a b c Ed Ed'), (IH t r Et Er). reflexivity.
Qed.


Lemma broadcast_shapes2_inv (s t r : list nat) :
  broadcast_shapes2 s t = Ok r -> broadcast_rev (rev s) (rev t) = Some (rev r).
Proof.
  unfold broadcast_shapes2.
  destruct (broadcast_rev (rev s) (rev t)) as [r'|]; [|discriminate].
  intros [= <-]. rewrite rev_involutive. reflexivity.
Qed.

Lemma broadcast_shapes2_intro (s t r : list nat) :
  broadcast_rev (rev s) (rev t) = Some (rev r) -> broadcast_shapes2 s t = Ok r.
Proof.
  unfold broadcast_shapes2. intros ->. rewrite rev_involutive. reflexivity.
Qed.

Lemma broadcast_shapes2_nil_l (s : list nat) : broadcast_shapes2 [] s = Ok s.
Proof. apply broadcast_shapes2_intro. reflexivity. Qed.

Lemma broadcasts_to_refl (s : list nat) : broadcasts_to s s.
Proof. apply broadcast_shapes2_intro, broadcast_rev_refl. Qed.

Lemma broadcast_shapes2_absorb (s t r : list nat) :
  broadcast_shapes2 s t = Ok r ->
  broadcasts_to s r /\ broadcasts_to t r
  /\ broadcast_shapes2 r s = Ok r /\ broadcast_shapes2 r t = Ok r.
Proof.
  intros H. apply broadcast_shapes2_inv in H.
  destruct (broadcast_rev_absorb _ _ _ H) as [R1 [R2 [R3 R4]]].
  repeat split; apply broadcast_shapes2_intro; assumption.
Qed.

Lemma broadcasts_to_trans (s t r : list nat) :
  broadcasts_to s t -> broadcasts_to t r -> broadcasts_to s r.
Proof.
  intros H1 H2. apply broadcast_shapes2_inv in H1, H2.
  apply broadcast_shapes2_intro. eapply broadcast_rev_trans; eassumption.
Qed.

Lemma broadcast_to_view (a : ndarray) (s : list nat) :
  broadcasts_to (shape a) s -> broadcast_to a s = Ok (broadcast_view a s).
Proof.
  intros H. unfold broadcast_to. rewrite H.
  destruct (list_eq_dec Nat.eq_dec s s) as [_|Hn]; [reflexivity | contradiction].
Qed.

Lemma broadcast_shapes_pair (s t : list nat) :
  broadcast_shapes [s; t] = broadcast_shapes2 s t.
Proof.
  unfold broadcast_shapes. cbn [fold_left rbind].
  rewrite broadcast_shapes2_nil_l. reflexivity.
Qed.

Lemma broadcast_shapes_triple (s t u r : list nat) :
  broadcast_shapes [s; t; u] = Ok r ->
  broadcasts_to s r /\ broadcasts_to t r /\ broadcasts_to u r.
Proof.
  unfold broadcast_shapes. cbn [fold_left rbind].
  rewrite broadcast_shapes2_nil_l. cbn [rbind].
  destruct (broadcast_shapes2 s t) as [st|] eqn:Est; cbn [rbind];
    [|discriminate].
  intros H.
  destruct (broadcast_shapes2_absorb _ _ _ Est) as [S1 [S2 _]].
  destruct (broadcast_shapes2_absorb _ _ _ H) as [T1 [T2 _]].
  repeat split; [| |exact T2]; eapply broadcasts_to_trans; eassumption.
Qed.

Lemma broadcast_shapes_cons_nil (shapes : list (list nat)) :
  broadcast_shapes ([] :: shapes) = broadcast_shapes shapes.
Proof.
  unfold broadcast_shapes. cbn [fold_left rbind].
  rewrite broadcast_shapes2_nil_l. reflexivity.
Qed.

Lemma shape_split (s : list nat) :
  (1 <= length s)%nat ->
  exists k, s = but_last s ++ [k] /\ last_axis s = [k].
Proof.
  intros Hs. assert (Hne : s <> []) by (destruct s; [cbn in Hs; lia | discriminate]).
  exists (last s 0%nat).
  pose proof (app_removelast_last 0%nat Hne) as E.
  split; [exact E|].
  unfold last_axis. rewrite E at 2. rewrite E at 1.
  rewrite length_app. cbn [length].
  replace (length (removelast s) + 1 - 1)%nat with (length (removelast s)) by lia.
  rewrite skipn_app, Nat.sub_diag, skipn_all. reflexivity.
Qed.

Lemma but_last_snoc (s : list nat) (k : nat) : but_last (s ++ [k]) = s.
Proof. apply removelast_last. Qed.

Lemma last_axis_snoc (s : list nat) (k : nat) : last_axis (s ++ [k]) = [k].
Proof.
  unfold last_axis. rewrite length_app. cbn [length].
  replace (length s + 1 - 1)%nat with (length s) by lia.
  rewrite skipn_app, Nat.sub_diag, skipn_all. reflexivity.
Qed.

Lemma broadcasts_to_snoc (s r : list nat) (k : nat) :
  broadcast_shapes2 s r = Ok r ->
  broadcast_shapes2 (s ++ [k]) (r ++ [k]) = Ok (r ++ [k]).
Proof.
  intros H. apply broadcast_shapes2_inv in H. apply broadcast_shapes2_intro.
  rewrite !rev_unit. cbn [broadcast_rev].
  rewrite broadcast_dim_refl, H. reflexivity.
Qed.

Lemma broadcast_shapes2_snoc (r s : list nat) (k : nat) :
  broadcast_shapes2 r s = Ok r ->
  broadcast_shapes2 (r ++ [k]) (s ++ [k]) = Ok (r ++ [k]).
Proof.
  intros H. apply broadcast_shapes2_inv in H. apply broadcast_shapes2_intro.
  rewrite !rev_unit. cbn [broadcast_rev].
  rewrite broadcast_dim_refl, H. reflexivity.
Qed.

Lemma mapM_broadcast_to (args : list ndarray) (common : list nat) :
  Forall (fun a => broadcasts_to (shape a) common) args ->
  mapM (fun a => broadcast_to a common) args
  = Ok (map (fun a => broadcast_view a common) args).
Proof.
  induction 1 as [|a args Ha _ IH]; [reflexivity|].
  cbn [mapM map]. rewrite (broadcast_to_view a common Ha). cbn [rbind].
  rewrite IH. reflexivity.
Qed.

Lemma promote_shapes_broadcasts (args : list ndarray) (shape0 common : list nat) :
  broadcast_shapes (shape0 :: map shape args) = Ok common ->
  Forall (fun a => broadcasts_to (shape a) common) args ->
  promote_shapes args shape0 = Ok (map (fun a => broadcast_view a common) args).
Proof.
  intros Hc Hall. unfold promote_shapes. rewrite Hc. cbn [rbind].
  apply mapM_broadcast_to, Hall.
Qed.

Lemma Distribution_init_ok (checks : list bool) (bs es : list nat) (va : bool) :
  (va = true -> forallb (fun b => b) checks = true) ->
  Distribution.__init__ checks bs es va = Ok (bs, es, va).
Proof.
  intros H. unfold Distribution.__init__. destruct va; [|reflexivity].
  rewrite (H eq_refl). reflexivity.
Qed.

Lemma BetaBinomial_init (c1 c0 tc : ndarray) (va : bool) (bs : list nat) :
  broadcast_shapes [shape c1; shape c0; shape tc] = Ok bs ->
  (va = true ->
   forallb (fun b => b)
     [array_all constraints.positive (broadcast_view c1 bs);
      array_all constraints.positive (broadcast_view c0 bs);
      array_all constraints.nonnegative_integer (broadcast_view tc bs)] = true) ->
  BetaBinomial.__init__ c1 c0 tc va
  = Ok (BetaBinomial.mk (broadcast_view c1 bs) (broadcast_view c0 bs)
          (broadcast_view tc bs)
          (Beta.mk (broadcast_view c1 bs) (broadcast_view c0 bs) bs) bs va).
Proof.
  intros Hbs Hva.
  destruct (broadcast_shapes_triple _ _ _ _ Hbs) as [B1 [B0 Bt]].
  unfold BetaBinomial.__init__.
  rewrite (promote_shapes_broadcasts [c1; c0; tc] [] bs).
  - cbn [map rbind unpack3]. rewrite Hbs. cbn [rbind].
    rewrite (broadcast_to_view c1 bs B1), (broadcast_to_view c0 bs B0).
    cbn [rbind]. unfold Beta.__init__. cbn [shape broadcast_view].
    rewrite broadcast_shapes_pair, (broadcasts_to_refl bs). cbn [rbind].
    rewrite (Distribution_init_ok _ bs [] va Hva). reflexivity.
  - cbn [map]. rewrite broadcast_shapes_cons_nil. exact Hbs.
  - repeat constructor; assumption.
Qed.

Lemma GammaPoisson_init (c r : ndarray) (va : bool) (bs : list nat) :
  broadcast_shapes [shape c; shape r] = Ok bs ->
  (va = true ->
   forallb (fun b => b)
     [array_all constraints.positive (broadcast_view c bs);
      array_all constraints.positive (broadcast_view r bs)] = true) ->
  GammaPoisson.__init__ c r va
  = Ok (GammaPoisson.mk (broadcast_view c bs) (broadcast_view r bs)
          (Gamma.mk c r bs) bs va).
Proof.
  intros Hbs Hva.
  pose proof Hbs as Hbs2. rewrite broadcast_shapes_pair in Hbs2.
  destruct (broadcast_shapes2_absorb _ _ _ Hbs2) as [Bc [Br _]].
  unfold GammaPoisson.__init__.
  rewrite (promote_shapes_broadcasts [c; r] [] bs).
  - cbn [map rbind unpack2]. unfold Gamma.__init__. rewrite Hbs. cbn [rbind].
    cbn [Gamma.batch_shape].
    rewrite (Distribution_init_ok _ bs [] va Hva). reflexivity.
  - cbn [map]. rewrite broadcast_shapes_cons_nil. exact Hbs.
  - repeat constructor; assumption.
Qed.

Lemma DirichletMultinomial_init (conc tc : ndarray) (va : bool) (bs : list nat) :
  (1 <= ndim conc)%nat ->
  broadcast_shapes [but_last (shape conc); shape tc] = Ok bs ->
  let cs := bs ++ last_axis (shape conc) in
  (va = true ->
   forallb (fun b => b)
     [array_all constraints.positive (broadcast_view conc cs);
      array_all constraints.nonnegative_integer (broadcast_view tc bs)] = true) ->
  DirichletMultinomial.__init__ conc tc va
  = Ok (DirichletMultinomial.mk (broadcast_view conc cs) (broadcast_view tc bs)
          (Dirichlet.mk (broadcast_view (broadcast_view conc cs) cs) bs
             (last_axis (shape conc)))
          bs (last_axis (shape conc)) va).
Proof.
  intros Hnd Hbs cs Hva.
  pose proof Hbs as Hbs2. rewrite broadcast_shapes_pair in Hbs2.
  destruct (broadcast_shapes2_absorb _ _ _ Hbs2) as [Bp [Bt [Bp' Bt']]].
  destruct (shape_split (shape conc) Hnd) as [k [Es El]].
  assert (Ecs : cs = bs ++ [k]) by (unfold cs; rewrite El; reflexivity).
  assert (C1 : broadcasts_to (shape conc) cs).
  { unfold broadcasts_to. rewrite Es, Ecs at 1. rewrite Ecs.
    apply broadcasts_to_snoc, Bp. }
  assert (C2 : broadcast_shapes2 cs (shape conc) = Ok cs).
  { rewrite Es, Ecs. apply broadcast_shapes2_snoc, Bp'. }
  unfold DirichletMultinomial.__init__.
  assert (Hlt : Nat.ltb (ndim conc) 1 = false) by (apply Nat.ltb_ge; exact Hnd).
  rewrite Hlt, Hbs. cbn [rbind]. fold cs.
  rewrite (promote_shapes_broadcasts [conc] cs cs);
    [| cbn [map]; rewrite broadcast_shapes_pair; exact C2
     | repeat constructor; exact C1].
  cbn [map rbind unpack1].
  rewrite (promote_shapes_broadcasts [tc] bs bs);
    [| cbn [map]; rewrite broadcast_shapes_pair; exact Bt'
     | repeat constructor; exact Bt].
  cbn [map rbind unpack1].
  rewrite (broadcast_to_view (broadcast_view conc cs) cs)
    by (cbn [shape broadcast_view]; apply broadcasts_to_refl).
  cbn [rbind]. unfold Dirichlet.__init__, ndim. cbn [shape broadcast_view].
  assert (Hlt' : Nat.ltb (length cs) 1 = false).
  { apply Nat.ltb_ge. rewrite Ecs, length_app. cbn. lia. }
  rewrite Hlt'. cbn [rbind Dirichlet.batch_shape Dirichlet.event_shape].
  assert (Eb : but_last cs = bs) by (rewrite Ecs; apply but_last_snoc).
  assert (Ee : last_axis cs = last_axis (shape conc))
    by (rewrite Ecs, El; apply last_axis_snoc).
  rewrite Eb, Ee.
  rewrite (Distribution_init_ok _ bs (last_axis (shape conc)) va Hva).
  reflexivity.
Qed.

(** C6. For mutually broadcastable constructor parameters, the batch shape
    of each compound distribution is the broadcast of the parameters'
    shapes (for [DirichletMultinomial], of [total_count]'s shape with
    [concentration]'s shape less its last axis), and each parameter is
    stored broadcast to that shape ([concentration] of
    [DirichletMultinomial] to the batch shape followed by its last axis).
    With validation enabled the parameters are to satisfy their
    constraints. *)
Theorem constructors_broadcast_parameters :
  (forall (c1 c0 tc : ndarray) (va : bool) (bs : list nat),
     broadcast_shapes [shape c1; shape c0; shape tc] = Ok bs ->
     (va = true ->
      forallb (fun b => b)
        [array_all constraints.positive (broadcast_view c1 bs);
         array_all constraints.positive (broadcast_view c0 bs);
         array_all constraints.nonnegative_integer (broadcast_view tc bs)]
      = true) ->
     exists self,
       BetaBinomial.__init__ c1 c0 tc va = Ok self
       /\ BetaBinomial.batch_shape self = bs
       /\ BetaBinomial.concentration1 self = broadcast_view c1 bs
       /\ BetaBinomial.concentration0 self = broadcast_view c0 bs
       /\ BetaBinomial.total_count self = broadcast_view tc bs
       /\ shape (BetaBinomial.concentration1 self) = bs
       /\ shape (BetaBinomial.concentration0 self) = bs
       /\ shape (BetaBinomial.total_count self) = bs)
  /\ (forall (concentration tc : ndarray) (va : bool) (bs : list nat),
        (1 <= ndim concentration)%nat ->
        broadcast_shapes [but_last (shape concentration); shape tc] = Ok bs ->
        let cs := bs ++ last_axis (shape concentration) in
        (va = true ->
         forallb (fun b => b)
           [array_all constraints.positive (broadcast_view concentration cs);
            array_all constraints.nonnegative_integer (broadcast_view tc bs)]
         = true) ->
        exists self,
          DirichletMultinomial.__init__ concentration tc va = Ok self
          /\ DirichletMultinomial.batch_shape self = bs
          /\ DirichletMultinomial.event_shape self
             = last_axis (shape concentration)
          /\ DirichletMultinomial.concentration self
             = broadcast_view concentration cs
          /\ DirichletMultinomial.total_count self = broadcast_view tc bs
          /\ shape (DirichletMultinomial.concentration self) = cs
          /\ shape (DirichletMultinomial.total_count self) = bs)
  /\ (forall (concentration rate : ndarray) (va : bool) (bs : list nat),
        broadcast_shapes [shape concentration; shape rate] = Ok bs ->
        (va = true ->
         forallb (fun b => b)
           [array_all constraints.positive (broadcast_view concentration bs);
            array_all constraints.positive (broadcast_view rate bs)]
         = true) ->
        exists self,
          GammaPoisson.__init__ concentration rate va = Ok self
          /\ GammaPoisson.batch_shape self = bs
          /\ GammaPoisson.concentration self = broadcast_view concentration bs
          /\ GammaPoisson.rate self = broadcast_view rate bs
          /\ shape (GammaPoisson.concentration self) = bs
          /\ shape (GammaPoisson.rate self) = bs).
Proof.
  split; [|split].
  - intros c1 c0 tc va bs Hbs Hva. eexists. split.
    + apply (BetaBinomial_init c1 c0 tc va bs Hbs Hva).
    + cbn. repeat split; reflexivity.
  - intros concentration tc va bs Hnd Hbs cs Hva. eexists. split.
    + apply (DirichletMultinomial_init concentration tc va bs Hnd Hbs Hva).
    + cbn. repeat split; reflexivity.
  - intros concentration rate va bs Hbs Hva. eexists. split.
    + apply (GammaPoisson_init concentration rate va bs Hbs Hva).
    + cbn. repeat split; reflexivity.
Qed.

Lemma constructors_broadcast_parameters_witness :
  exists self,
    BetaBinomial.__init__ (mk_ndarray [] (fun _ => 2))
      (mk_ndarray [3%nat] (fun _ => 1)) (mk_ndarray [1%nat] (fun _ => 4)) false
    = Ok self
    /\ BetaBinomial.batch_shape self = [3%nat]
    /\ shape (BetaBinomial.concentration1 self) = [3%nat]
    /\ shape (BetaBinomial.concentration0 self) = [3%nat]
    /\ shape (BetaBinomial.total_count self) = [3%nat].
Proof.
  destruct constructors_broadcast_parameters as [Hbb _].
  destruct (Hbb (mk_ndarray [] (fun _ => 2)) (mk_ndarray [3%nat] (fun _ => 1))
              (mk_ndarray [1%nat] (fun _ => 4)) false [3%nat] eq_refl)
    as [self [Hinit [Hbs [_ [_ [_ [H1 [H0 Ht]]]]]]]].
  - discriminate.
  - exists self. repeat split; assumption.
Defined.

(** * The vectors of [test_util.py], and some shapes *)

Example xlogy_test_zero : Xlogy.xlogy (Xlogy.Fin 0) (Xlogy.Fin 0) = Xlogy.Fin 0.
Proof. unfold Xlogy.xlogy. rewrite is_zero_0. reflexivity. Qed.

Example xlog1py_test_pole :
  Xlogy.xlog1py (Xlogy.Fin 1) (Xlogy.Fin (-1)) = Xlogy.NInf.
Proof.
  unfold Xlogy.xlog1py, Xlogy.is_zero, Req_b.
  destruct (Req_dec_T 1 0) as [H|_]; [lra|].
  unfold Xlogy.xlog1p, Xlogy.xlog.
  destruct (Rlt_dec 0 (1 + -1)) as [H|_]; [lra|].
  destruct (Req_dec_T (1 + -1) 0) as [_|H]; [|lra].
  cbn. destruct (Req_dec_T 1 0) as [H|_]; [lra|].
  unfold Rlt_b. destruct (Rlt_dec 1 0) as [H|_]; [lra | reflexivity].
Qed.

Example xlog1py_test_log2 :
  Xlogy.xlog1py (Xlogy.Fin 1) (Xlogy.Fin 1) = Xlogy.Fin (1 * ln (1 + 1)).
Proof.
  unfold Xlogy.xlog1py, Xlogy.is_zero, Req_b.
  destruct (Req_dec_T 1 0) as [H|_]; [lra|].
  unfold Xlogy.xlog1p, Xlogy.xlog.
  destruct (Rlt_dec 0 (1 + 1)) as [_|H]; [reflexivity | lra].
Qed.

Example broadcast_scalar_vector :
  broadcast_shapes [[]; [3%nat]; [1%nat]] = Ok [3%nat].
Proof. reflexivity. Qed.

Example broadcast_matrix_vector :
  broadcast_shapes [[2; 1]%nat; [3%nat]] = Ok [2; 3]%nat.
Proof. reflexivity. Qed.

Example broadcast_incompatible :
  broadcast_shapes [[2%nat]; [3%nat]] = Raise ValueError.
Proof. reflexivity. Qed.

Example compositions_2_3 :
  compositions 2 3 = [[0; 3]; [1; 2]; [2; 1]; [3; 0]]%nat.
Proof. reflexivity. Qed.

(** * Moments of the count vectors *)

Lemma rising_over_fact_shift (a : R) (k : nat) :
  a * rising_over_fact (a + 1) k = (a + INR k) * rising_over_fact a k.
Proof.
  induction k as [|k IH].
  - cbn. ring.
  - cbn [rising_over_fact].
    pose proof (pos_INR k) as Hk.
    transitivity (a * rising_over_fact (a + 1) k * (a + 1 + INR k) / INR (S k)).
    + rewrite S_INR. field. lra.
    + rewrite IH, S_INR. field. lra.
Qed.

Lemma rising_over_fact_succ (a : R) (k : nat) :
  INR (S k) * rising_over_fact a (S k) = a * rising_over_fact (a + 1) k.
Proof. rewrite rising_over_fact_step, rising_over_fact_shift. reflexivity. Qed.

Lemma rising_over_fact_1_ratio (b : R) (n : nat) :
  b * rising_over_fact_1 b n = INR n * rising_over_fact b n.
Proof.
  destruct n as [|m]; cbn [rising_over_fact_1].
  - change (INR 0) with 0. ring.
  - rewrite rising_over_fact_succ. reflexivity.
Qed.

Lemma rising_over_fact_2_ratio (b : R) (n : nat) :
  b * (b + 1) * rising_over_fact_2 b n
  = INR n * (INR n - 1) * rising_over_fact b n.
Proof.
  destruct n as [|[|m]]; cbn [rising_over_fact_2].
  - change (INR 0) with 0. ring.
  - change (INR 1) with 1. ring.
  - replace (INR (S (S m)) - 1) with (INR (S m)) by (rewrite (S_INR (S m)); ring).
    replace (INR (S (S m)) * INR (S m) * rising_over_fact b (S (S m)))
      with (INR (S m) * (INR (S (S m)) * rising_over_fact b (S (S m)))) by ring.
    rewrite rising_over_fact_succ.
    replace (INR (S m) * (b * rising_over_fact (b + 1) (S m)))
      with (b * (INR (S m) * rising_over_fact (b + 1) (S m))) by ring.
    rewrite rising_over_fact_succ.
    replace (b + 1 + 1) with (b + 2) by ring. ring.
Qed.

Lemma convolution_1 (a b : R) (n : nat) :
  sum_f_R0 (fun k => rising_over_fact a k * rising_over_fact_1 b (n - k)) n
  = rising_over_fact_1 (a + b) n.
Proof.
  destruct n as [|m].
  - cbn. ring.
  - rewrite tech5, Nat.sub_diag. cbn [rising_over_fact_1].
    rewrite Rmult_0_r, Rplus_0_r.
    replace (a + b + 1) with (a + (b + 1)) by ring.
    rewrite <- (rising_vandermonde a (b + 1) m).
    apply sum_eq. intros k Hk.
    replace (S m - k)%nat with (S (m - k)) by lia. reflexivity.
Qed.

Lemma convolution_2 (a b : R) (n : nat) :
  sum_f_R0 (fun k => rising_over_fact a k * rising_over_fact_2 b (n - k)) n
  = rising_over_fact_2 (a + b) n.
Proof.
  destruct n as [|[|m]].
  - cbn. ring.
  - cbn. ring.
  - rewrite !tech5, Nat.sub_diag.
    replace (S (S m) - S m)%nat with 1%nat by lia.
    cbn [rising_over_fact_2]. rewrite !Rmult_0_r, !Rplus_0_r.
    replace (a + b + 2) with (a + (b + 2)) by ring.
    rewrite <- (rising_vandermonde a (b + 2) m).
    apply sum_eq. intros k Hk.
    replace (S (S m) - k)%nat with (S (S (m - k))) by lia. reflexivity.
Qed.

Lemma first_moment_convolution (a b : R) (n : nat) :
  sum_f_R0 (fun k => INR k * (rising_over_fact a k * rising_over_fact b (n - k))) n
  = a * rising_over_fact_1 (a + b) n.
Proof.
  destruct n as [|m].
  - cbn. ring.
  - rewrite (sum_f_R0_shift
               (fun k => rising_over_fact a k * rising_over_fact b (S m - k))).
    cbn [rising_over_fact_1].
    replace (a + b + 1) with (a + 1 + b) by ring.
    rewrite <- (rising_vandermonde (a + 1) b m), scal_sum.
    apply sum_eq. intros k Hk. cbn [Nat.sub].
    rewrite <- Rmult_assoc, rising_over_fact_succ. ring.
Qed.

Lemma second_moment_convolution (a b : R) (n : nat) :
  sum_f_R0 (fun k => INR k * (INR k - 1)
                     * (rising_over_fact a k * rising_over_fact b (n - k))) n
  = a * (a + 1) * rising_over_fact_2 (a + b) n.
Proof.
  destruct n as [|m].
  - cbn. ring.
  - transitivity
      (sum_f_R0 (fun k => INR k * ((INR k - 1)
                          * (rising_over_fact a k * rising_over_fact b (S m - k))))
                (S m)).
    { apply sum_eq. intros k _. ring. }
    rewrite (sum_f_R0_shift
               (fun k => (INR k - 1)
                         * (rising_over_fact a k * rising_over_fact b (S m - k)))).
    transitivity
      (a * sum_f_R0 (fun k => INR k * (rising_over_fact (a + 1) k
                                       * rising_over_fact b (m - k))) m).
    { rewrite scal_sum. apply sum_eq. intros k Hk. cbn [Nat.sub].
      replace (INR (S k) - 1) with (INR k) by (rewrite S_INR; ring).
      replace (INR (S k) * (INR k * (rising_over_fact a (S k)
                                     * rising_over_fact b (m - k))))
        with (INR k * (INR (S k) * rising_over_fact a (S k))
              * rising_over_fact b (m - k)) by ring.
      rewrite rising_over_fact_succ. ring. }
    rewrite first_moment_convolution.
    replace (a + 1 + b) with (a + b + 1) by ring.
    destruct m as [|m']; cbn [rising_over_fact_1 rising_over_fact_2]; [ring|].
    replace (a + b + 1 + 1) with (a + b + 2) by ring. ring.
Qed.

Lemma Rsum_map_plus {A : Type} (f g : A -> R) (l : list A) :
  Rsum (map (fun x => f x + g x) l) = Rsum (map f l) + Rsum (map g l).
Proof.
  induction l as [|a l IH]; [cbn; unfold Rsum; cbn; ring|].
  cbn [map]. rewrite !Rsum_cons, IH. ring.
Qed.

Lemma Rsum_map_ext_in {A : Type} (f g : A -> R) (l : list A) :
  (forall x, In x l -> f x = g x) -> Rsum (map f l) = Rsum (map g l).
Proof. intros H. f_equal. apply map_ext_in, H. Qed.

Lemma composition_moment_head (g : nat -> R) (a : R) (rest : list R) (n : nat) :
  composition_moment g 0 (a :: rest) n
  = sum_f_R0 (fun k => g k * (rising_over_fact a k
                              * rising_over_fact (Rsum rest) (n - k))) n.
Proof.
  unfold composition_moment. cbn [length compositions].
  rewrite Rsum_flat_map, <- Rsum_seq. f_equal. apply map_ext. intros k.
  rewrite map_map. cbn [nth composition_weight].
  rewrite <- compositions_weight_sum, <- !Rsum_map_scale.
  apply Rsum_map_ext_in. intros y _. ring.
Qed.

Lemma composition_moment_tail (g : nat -> R) (i : nat) (a : R) (rest : list R)
  (n : nat) :
  composition_moment g (S i) (a :: rest) n
  = sum_f_R0 (fun k => rising_over_fact a k
                       * composition_moment g i rest (n - k)) n.
Proof.
  unfold composition_moment. cbn [length compositions].
  rewrite Rsum_flat_map, <- Rsum_seq. f_equal. apply map_ext. intros k.
  rewrite map_map. cbn [nth composition_weight].
  rewrite <- Rsum_map_scale.
  apply Rsum_map_ext_in. intros y _. ring.
Qed.

Lemma composition_first_moment (alpha : list R) (i n : nat) :
  (i < length alpha)%nat ->
  composition_moment INR i alpha n
  = nth i alpha 0 * rising_over_fact_1 (Rsum alpha) n.
Proof.
  revert i n. induction alpha as [|a rest IH]; intros i n Hi.
  - cbn in Hi. lia.
  - rewrite Rsum_cons. destruct i as [|j].
    + rewrite composition_moment_head. cbn [nth].
      apply first_moment_convolution.
    + rewrite composition_moment_tail. cbn [nth].
      cbn [length] in Hi.
      rewrite <- convolution_1, scal_sum.
      apply sum_eq. intros k _. rewrite IH by lia. ring.
Qed.

Lemma composition_second_moment (alpha : list R) (i n : nat) :
  (i < length alpha)%nat ->
  composition_moment (fun k => INR k * (INR k - 1)) i alpha n
  = nth i alpha 0 * (nth i alpha 0 + 1) * rising_over_fact_2 (Rsum alpha) n.
Proof.
  revert i n. induction alpha as [|a rest IH]; intros i n Hi.
  - cbn in Hi. lia.
  - rewrite Rsum_cons. destruct i as [|j].
    + rewrite composition_moment_head. cbn [nth].
      apply second_moment_convolution.
    + rewrite composition_moment_tail. cbn [nth].
      cbn [length] in Hi.
      rewrite <- convolution_2, scal_sum.
      apply sum_eq. intros k _. rewrite IH by lia. ring.
Qed.

Lemma composition_zeroth_moment (alpha : list R) (i n : nat) :
  composition_moment (fun _ => 1) i alpha n = rising_over_fact (Rsum alpha) n.
Proof.
  unfold composition_moment. rewrite <- compositions_weight_sum.
  apply Rsum_map_ext_in. intros x _. ring.
Qed.

Lemma composition_moment_linear (g1 g2 g3 : nat -> R) (u w : R)
  (i : nat) (alpha : list R) (n : nat) :
  composition_moment (fun k => g1 k + u * g2 k + w * g3 k) i alpha n
  = composition_moment g1 i alpha n + u * composition_moment g2 i alpha n
    + w * composition_moment g3 i alpha n.
Proof.
  unfold composition_moment.
  rewrite <- !Rsum_map_scale, <- !Rsum_map_plus.
  apply Rsum_map_ext_in. intros x _. ring.
Qed.

Lemma nth_map_lt {A : Type} (f : A -> R) (l : list A) (i : nat) (d : A) :
  (i < length l)%nat -> nth i (map f l) 0 = f (nth i l d).
Proof.
  intros Hi. rewrite (nth_indep (map f l) 0 (f d)) by (rewrite length_map; exact Hi).
  apply map_nth.
Qed.

Section DirichletMultinomialMoments.
Variable gammaln : R -> R.
Hypothesis gammaln_ok : gammaln_laws gammaln.
Variable self : DirichletMultinomial.t (list R) R.
Let alpha := DirichletMultinomial.concentration self.
Hypothesis alpha_nonempty : alpha <> [].
Hypothesis alpha_positive : Forall (fun a => 0 < a) alpha.

Lemma DirichletMultinomial_expectation_coordinate (g : nat -> R) (i n : nat) :
  DirichletMultinomial_expectation gammaln self n (fun x => g (nth i x 0%nat))
  = INR (fact n) / rising (Rsum alpha) n * composition_moment g i alpha n.
Proof.
  unfold DirichletMultinomial_expectation, composition_moment. fold alpha.
  rewrite <- Rsum_map_scale. apply Rsum_map_ext_in. intros x Hx.
  apply compositions_In in Hx. destruct Hx as [Hl Hs].
  rewrite (DirichletMultinomial_exp_log_prob gammaln gammaln_ok self x
             alpha_nonempty alpha_positive Hl).
  fold alpha. rewrite Hs. ring.
Qed.

Lemma normaliser_cancels (n : nat) :
  INR (fact n) / rising (Rsum alpha) n * rising_over_fact (Rsum alpha) n = 1.
Proof.
  rewrite rising_over_fact_eq. field. split; [apply INR_fact_neq_0|].
  apply Rgt_not_eq, rising_pos, Rsum_pos; assumption.
Qed.

Lemma DirichletMultinomial_first_moment (i n : nat) :
  (i < length alpha)%nat ->
  DirichletMultinomial_expectation gammaln self n
    (fun x => INR (nth i x 0%nat))
  = INR n * nth i alpha 0 / Rsum alpha.
Proof.
  intros Hi.
  pose proof (Rsum_pos alpha alpha_nonempty alpha_positive) as HA.
  rewrite (DirichletMultinomial_expectation_coordinate INR).
  rewrite composition_first_moment by exact Hi.
  pose proof (rising_over_fact_1_ratio (Rsum alpha) n) as H1.
  pose proof (normaliser_cancels n) as Hq.
  set (q := INR (fact n) / rising (Rsum alpha) n) in *.
  set (A := Rsum alpha) in *.
  transitivity (nth i alpha 0 * (q * (A * rising_over_fact_1 A n)) / A).
  - field. lra.
  - rewrite H1.
    replace (q * (INR n * rising_over_fact A n))
      with (INR n * (q * rising_over_fact A n)) by ring.
    rewrite Hq. field. lra.
Qed.

Lemma DirichletMultinomial_second_moment (i n : nat) :
  (i < length alpha)%nat ->
  DirichletMultinomial_expectation gammaln self n
    (fun x => INR (nth i x 0%nat) * (INR (nth i x 0%nat) - 1))
  = INR n * (INR n - 1) * (nth i alpha 0 * (nth i alpha 0 + 1))
    / (Rsum alpha * (Rsum alpha + 1)).
Proof.
  intros Hi.
  pose proof (Rsum_pos alpha alpha_nonempty alpha_positive) as HA.
  rewrite (DirichletMultinomial_expectation_coordinate
             (fun k => INR k * (INR k - 1))).
  rewrite composition_second_moment by exact Hi.
  pose proof (rising_over_fact_2_ratio (Rsum alpha) n) as H2.
  pose proof (normaliser_cancels n) as Hq.
  set (q := INR (fact n) / rising (Rsum alpha) n) in *.
  set (A := Rsum alpha) in *.
  transitivity (nth i alpha 0 * (nth i alpha 0 + 1)
                * (q * (A * (A + 1) * rising_over_fact_2 A n)) / (A * (A + 1))).
  - field. lra.
  - rewrite H2.
    replace (q * (INR n * (INR n - 1) * rising_over_fact A n))
      with (INR n * (INR n - 1) * (q * rising_over_fact A n)) by ring.
    rewrite Hq. field. lra.
Qed.

Lemma DirichletMultinomial_total_probability (n : nat) :
  DirichletMultinomial_expectation gammaln self n (fun _ => 1) = 1.
Proof.
  rewrite (DirichletMultinomial_expectation_coordinate (fun _ => 1) 0 n).
  rewrite composition_zeroth_moment. apply normaliser_cancels.
Qed.

Lemma DirichletMultinomial_centred_second_moment (i n : nat) (mu : R) :
  (i < length alpha)%nat ->
  DirichletMultinomial_expectation gammaln self n
    (fun x => (INR (nth i x 0%nat) - mu) * (INR (nth i x 0%nat) - mu))
  = INR n * (INR n - 1) * (nth i alpha 0 * (nth i alpha 0 + 1))
    / (Rsum alpha * (Rsum alpha + 1))
    + (1 - 2 * mu) * (INR n * nth i alpha 0 / Rsum alpha)
    + mu * mu.
Proof.
  intros Hi.
  pose proof (DirichletMultinomial_second_moment i n Hi) as H2.
  pose proof (DirichletMultinomial_first_moment i n Hi) as H1.
  pose proof (DirichletMultinomial_total_probability n) as H0.
  rewrite (DirichletMultinomial_expectation_coordinate
             (fun k => INR k * (INR k - 1))) in H2.
  rewrite (DirichletMultinomial_expectation_coordinate INR) in H1.
  rewrite (DirichletMultinomial_expectation_coordinate (fun _ => 1) i n) in H0.
  rewrite (DirichletMultinomial_expectation_coordinate
             (fun k => (INR k - mu) * (INR k - mu))).
  assert (Hg : composition_moment (fun k => (INR k - mu) * (INR k - mu)) i alpha n
               = composition_moment
                   (fun k => INR k * (INR k - 1) + (1 - 2 * mu) * INR k
                             + mu * mu * 1) i alpha n).
  { unfold composition_moment. apply Rsum_map_ext_in. intros x _. ring. }
  rewrite Hg, composition_moment_linear.
  set (q := INR (fact n) / rising (Rsum alpha) n) in *.
  rewrite <- H2, <- H1.
  transitivity (q * composition_moment (fun k => INR k * (INR k - 1)) i alpha n
                + (1 - 2 * mu) * (q * composition_moment INR i alpha n)
                + mu * mu * (q * composition_moment (fun _ => 1) i alpha n)).
  - ring.
  - rewrite H0. ring.
Qed.

End DirichletMultinomialMoments.

(** X1. The entries of [DirichletMultinomial.variance] are the variances of
    the counts under [exp (log_prob)]: for every category [i], the
    expectation of [value_i] over the count vectors of [total_count] is
    [total_count * alpha_i / sum alpha], and the expectation of the squared
    deviation from it is [variance_i]. *)
Theorem DirichletMultinomial_variance_of_density (gammaln : R -> R) :
  gammaln_laws gammaln ->
  forall (self : DirichletMultinomial.t (list R) R) (n i : nat),
    let alpha := DirichletMultinomial.concentration self in
    alpha <> [] -> Forall (fun a => 0 < a) alpha ->
    DirichletMultinomial.total_count self = INR n ->
    (i < length alpha)%nat ->
    let mu := DirichletMultinomial.total_count self * nth i alpha 0 / Rsum alpha in
    DirichletMultinomial_expectation gammaln self n
      (fun x => INR (nth i x 0%nat)) = mu
    /\ DirichletMultinomial_expectation gammaln self n
         (fun x => (INR (nth i x 0%nat) - mu) * (INR (nth i x 0%nat) - mu))
       = nth i (DirichletMultinomial.variance self) 0.
Proof.
  intros Hg self n i alpha Hne Hpos Hn Hi mu.
  pose proof (Rsum_pos alpha Hne Hpos) as HA.
  split.
  - unfold mu. rewrite Hn.
    apply (DirichletMultinomial_first_moment gammaln Hg self Hne Hpos i n Hi).
  - rewrite (DirichletMultinomial_centred_second_moment gammaln Hg self Hne Hpos
               i n mu Hi).
    unfold DirichletMultinomial.variance. fold alpha.
    rewrite map_map, (nth_map_lt _ alpha i 0 Hi).
    unfold mu. rewrite Hn. field. lra.
Qed.

Lemma DirichletMultinomial_variance_of_density_witness :
  DirichletMultinomial_expectation LogGamma.lgamma
    (dirichlet_multinomial [1; 2] (INR 3)) 3 (fun x => INR (nth 0 x 0%nat))
  = INR 3 * 1 / Rsum [1; 2].
Proof.
  assert (Hne : [1; 2] <> @nil R) by discriminate.
  assert (Hpos : Forall (fun a => 0 < a) [1; 2]) by (repeat constructor; lra).
  apply (DirichletMultinomial_variance_of_density LogGamma.lgamma lgamma_laws
           (dirichlet_multinomial [1; 2] (INR 3)) 3 0 Hne Hpos eq_refl).
  cbn. lia.
Defined.

(** X2. [DirichletMultinomial.mean] is the mean of the counts under
    [exp (log_prob)], provided [Dirichlet.mean] returns the mean
    [alpha / sum alpha] of the prior. *)
Theorem DirichletMultinomial_mean_of_density
  (gammaln : R -> R) (Dirichlet_mean : Dirichlet.t (list R) -> list R) :
  gammaln_laws gammaln ->
  forall (self : DirichletMultinomial.t (list R) R) (n i : nat),
    let alpha := DirichletMultinomial.concentration self in
    alpha <> [] -> Forall (fun a => 0 < a) alpha ->
    DirichletMultinomial.total_count self = INR n ->
    (i < length alpha)%nat ->
    Dirichlet_mean (DirichletMultinomial._dirichlet self)
    = map (fun a => a / Rsum alpha) alpha ->
    nth i (DirichletMultinomial.mean Dirichlet_mean self) 0
    = DirichletMultinomial_expectation gammaln self n
        (fun x => INR (nth i x 0%nat)).
Proof.
  intros Hg self n i alpha Hne Hpos Hn Hi Hmean.
  rewrite (DirichletMultinomial_first_moment gammaln Hg self Hne Hpos i n Hi).
  unfold DirichletMultinomial.mean. rewrite Hmean, map_map.
  rewrite (nth_map_lt _ alpha i 0 Hi), Hn. fold alpha.
  unfold Rdiv. ring.
Qed.

Lemma DirichletMultinomial_mean_of_density_witness :
  nth 0 (DirichletMultinomial.mean
           (fun d => map (fun a => a / Rsum (Dirichlet.concentration d))
                         (Dirichlet.concentration d))
           (dirichlet_multinomial [1; 2] (INR 3))) 0
  = DirichletMultinomial_expectation LogGamma.lgamma
      (dirichlet_multinomial [1; 2] (INR 3)) 3 (fun x => INR (nth 0 x 0%nat)).
Proof.
  assert (Hne : [1; 2] <> @nil R) by discriminate.
  assert (Hpos : Forall (fun a => 0 < a) [1; 2]) by (repeat constructor; lra).
  apply (DirichletMultinomial_mean_of_density LogGamma.lgamma
           (fun d => map (fun a => a / Rsum (Dirichlet.concentration d))
                         (Dirichlet.concentration d))
           lgamma_laws (dirichlet_multinomial [1; 2] (INR 3)) 3 0 Hne Hpos
           eq_refl).
  - cbn. lia.
  - reflexivity.
Defined.

(** * BetaBinomial as the two-category DirichletMultinomial *)

Lemma flat_map_all_nil {A B : Type} (f : A -> list B) (l : list A) :
  (forall a, In a l -> f a = []) -> flat_map f l = [].
Proof.
  induction l as [|a l IH]; intros H; [reflexivity|].
  cbn [flat_map]. rewrite (H a (or_introl eq_refl)), IH; [reflexivity|].
  intros b Hb. apply H. right. exact Hb.
Qed.

Lemma compositions_1 (m : nat) : compositions 1 m = [[m]].
Proof.
  cbn [compositions]. rewrite seq_S, flat_map_app.
  rewrite flat_map_all_nil.
  - cbn [flat_map Nat.add app]. rewrite Nat.sub_diag. reflexivity.
  - intros i Hi. apply in_seq in Hi.
    destruct (m - i)%nat eqn:E; [lia | reflexivity].
Qed.

Lemma compositions_2 (n : nat) :
  compositions 2 n = map (fun k => [k; (n - k)%nat]) (seq 0 (S n)).
Proof.
  change (compositions 2 n)
    with (flat_map (fun i => map (cons i) (compositions 1 (n - i))) (seq 0 (S n))).
  induction (seq 0 (S n)) as [|k l IH]; [reflexivity|].
  cbn [flat_map map]. rewrite IH, compositions_1. reflexivity.
Qed.

Lemma BetaBinomial_as_DirichletMultinomial
  (gammaln : R -> R) (betaln : R -> R -> R) (c1 c0 : R) (n v : nat) :
  betaln_laws gammaln betaln ->
  0 < c1 -> 0 < c0 -> (v <= n)%nat ->
  BetaBinomial.log_prob gammaln betaln (beta_binomial c1 c0 (INR n)) (INR v)
  = DirichletMultinomial.log_prob gammaln
      (dirichlet_multinomial [c1; c0] (INR n)) [INR v; INR (n - v)].
Proof.
  intros Hb H1 H0 Hv.
  pose proof (pos_INR v) as Pv. pose proof (pos_INR (n - v)) as Pnv.
  assert (En : INR n = INR v + INR (n - v)).
  { rewrite <- plus_INR. f_equal. lia. }
  unfold BetaBinomial.log_prob, DirichletMultinomial.log_prob, beta_binomial,
    dirichlet_multinomial, _log_beta_1.
  cbn [BetaBinomial.total_count BetaBinomial.concentration1
       BetaBinomial.concentration0 DirichletMultinomial.concentration map2].
  rewrite !Rsum_cons. unfold Rsum. cbn [fold_right].
  rewrite (Hb (INR v + c1)), (Hb c0 c1) by lra.
  rewrite En.
  replace (INR v + INR (n - v) - INR v + 1) with (1 + INR (n - v)) by ring.
  replace (INR v + (1 + INR (n - v))) with (1 + (INR v + (INR (n - v) + 0)))
    by ring.
  replace (INR v + INR (n - v) - INR v + c0) with (INR (n - v) + c0) by ring.
  replace (INR v + c1 + (INR (n - v) + c0))
    with (INR v + (INR (n - v) + 0) + (c1 + (c0 + 0))) by ring.
  replace (c0 + c1) with (c1 + (c0 + 0)) by ring.
  ring.
Qed.

Section BetaBinomialMoments.
Variable gammaln : R -> R.
Variable betaln : R -> R -> R.
Hypothesis gammaln_ok : gammaln_laws gammaln.
Hypothesis betaln_ok : betaln_laws gammaln betaln.
Variables c1 c0 : R.
Hypothesis c1_positive : 0 < c1.
Hypothesis c0_positive : 0 < c0.
Variable n : nat.

Lemma BetaBinomial_sum_as_expectation (h : nat -> R) :
  sum_f_R0 (fun v => h v * exp (BetaBinomial.log_prob gammaln betaln
                                  (beta_binomial c1 c0 (INR n)) (INR v))) n
  = DirichletMultinomial_expectation gammaln
      (dirichlet_multinomial [c1; c0] (INR n)) n (fun x => h (nth 0 x 0%nat)).
Proof.
  unfold DirichletMultinomial_expectation.
  cbn [dirichlet_multinomial DirichletMultinomial.concentration length].
  rewrite compositions_2, map_map, Rsum_seq.
  apply sum_eq. intros v Hv. cbn [nth map].
  rewrite (BetaBinomial_as_DirichletMultinomial gammaln betaln c1 c0 n v)
    by assumption.
  reflexivity.
Qed.

Lemma two_categories_positive : Forall (fun a => 0 < a) [c1; c0].
Proof. repeat constructor; assumption. Qed.

Lemma two_categories_nonempty : [c1; c0] <> [].
Proof. discriminate. Qed.

Lemma BetaBinomial_total_probability :
  sum_f_R0 (fun v => exp (BetaBinomial.log_prob gammaln betaln
                            (beta_binomial c1 c0 (INR n)) (INR v))) n = 1.
Proof.
  rewrite <- (DirichletMultinomial_total_probability gammaln gammaln_ok
                (dirichlet_multinomial [c1; c0] (INR n))
                two_categories_nonempty two_categories_positive n).
  rewrite <- (BetaBinomial_sum_as_expectation (fun _ => 1)).
  apply sum_eq. intros v _. ring.
Qed.

Lemma BetaBinomial_first_moment :
  sum_f_R0 (fun v => INR v * exp (BetaBinomial.log_prob gammaln betaln
                                    (beta_binomial c1 c0 (INR n)) (INR v))) n
  = INR n * c1 / (c1 + c0).
Proof.
  rewrite (BetaBinomial_sum_as_expectation INR).
  rewrite (DirichletMultinomial_first_moment gammaln gammaln_ok
             (dirichlet_multinomial [c1; c0] (INR n))
             two_categories_nonempty two_categories_positive 0 n)
    by (cbn; lia).
  cbn [dirichlet_multinomial DirichletMultinomial.concentration nth].
  rewrite !Rsum_cons. unfold Rsum. cbn [fold_right].
  rewrite Rplus_0_r. reflexivity.
Qed.

Lemma BetaBinomial_centred_second_moment (mu : R) :
  sum_f_R0 (fun v => (INR v - mu) * (INR v - mu)
                     * exp (BetaBinomial.log_prob gammaln betaln
                              (beta_binomial c1 c0 (INR n)) (INR v))) n
  = INR n * (INR n - 1) * (c1 * (c1 + 1)) / ((c1 + c0) * (c1 + c0 + 1))
    + (1 - 2 * mu) * (INR n * c1 / (c1 + c0)) + mu * mu.
Proof.
  rewrite (BetaBinomial_sum_as_expectation (fun v => (INR v - mu) * (INR v - mu))).
  rewrite (DirichletMultinomial_centred_second_moment gammaln gammaln_ok
             (dirichlet_multinomial [c1; c0] (INR n))
             two_categories_nonempty two_categories_positive 0 n mu)
    by (cbn; lia).
  cbn [dirichlet_multinomial DirichletMultinomial.concentration nth].
  rewrite !Rsum_cons. unfold Rsum. cbn [fold_right].
  rewrite Rplus_0_r. reflexivity.
Qed.

End BetaBinomialMoments.

(** X3. [BetaBinomial (c1, c0, n).log_prob] at [v] is
    [DirichletMultinomial ([c1, c0]).log_prob] at the count vector
    [[v, n - v]]: the beta-binomial is the two-category
    Dirichlet-multinomial. *)
Theorem BetaBinomial_is_two_category_DirichletMultinomial
  (gammaln : R -> R) (betaln : R -> R -> R) (c1 c0 : R) (n v : nat) :
  betaln_laws gammaln betaln ->
  0 < c1 -> 0 < c0 -> (v <= n)%nat ->
  BetaBinomial.log_prob gammaln betaln (beta_binomial c1 c0 (INR n)) (INR v)
  = DirichletMultinomial.log_prob gammaln
      (dirichlet_multinomial [c1; c0] (INR n)) [INR v; INR (n - v)].
Proof. apply BetaBinomial_as_DirichletMultinomial. Qed.

Lemma BetaBinomial_is_two_category_DirichletMultinomial_witness :
  BetaBinomial.log_prob LogGamma.lgamma lbeta (beta_binomial 2 3 (INR 4)) (INR 1)
  = DirichletMultinomial.log_prob LogGamma.lgamma
      (dirichlet_multinomial [2; 3] (INR 4)) [INR 1; INR (4 - 1)].
Proof.
  apply (BetaBinomial_is_two_category_DirichletMultinomial LogGamma.lgamma lbeta
           2 3 4 1 lbeta_laws); try lra; lia.
Defined.

(** X4. For concentrations [c1, c0 > 0] and [total_count = n], the
    probabilities [exp (log_prob v)] of [BetaBinomial] over the support
    [v = 0 .. n] sum to [1]. *)
Theorem BetaBinomial_density_sums_to_one
  (gammaln : R -> R) (betaln : R -> R -> R) (c1 c0 : R) (n : nat) :
  gammaln_laws gammaln -> betaln_laws gammaln betaln ->
  0 < c1 -> 0 < c0 ->
  sum_f_R0 (fun v => exp (BetaBinomial.log_prob gammaln betaln
                            (beta_binomial c1 c0 (INR n)) (INR v))) n = 1.
Proof.
  intros Hg Hb H1 H0.
  apply (BetaBinomial_total_probability gammaln betaln Hg Hb c1 c0 H1 H0 n).
Qed.

Lemma BetaBinomial_density_sums_to_one_witness :
  sum_f_R0 (fun v => exp (BetaBinomial.log_prob LogGamma.lgamma lbeta
                            (beta_binomial 2 3 (INR 4)) (INR v))) 4 = 1.
Proof.
  apply (BetaBinomial_density_sums_to_one LogGamma.lgamma lbeta 2 3 4
           lgamma_laws lbeta_laws); lra.
Defined.

(** X5. [BetaBinomial.mean] and [BetaBinomial.variance] are the mean and the
    variance of [exp (log_prob)] over [0 .. total_count], provided
    [Beta.mean] and [Beta.variance] return the moments
    [c1 / (c1 + c0)] and [c1 c0 / ((c1 + c0)^2 (c1 + c0 + 1))] of the
    prior. *)
Theorem BetaBinomial_moments_of_density
  (gammaln : R -> R) (betaln : R -> R -> R)
  (Beta_mean Beta_variance : Beta.t R -> R) :
  gammaln_laws gammaln -> betaln_laws gammaln betaln ->
  forall (c1 c0 : R) (n : nat),
    0 < c1 -> 0 < c0 ->
    let self := beta_binomial c1 c0 (INR n) in
    Beta_mean (BetaBinomial._beta self) = c1 / (c1 + c0) ->
    Beta_variance (BetaBinomial._beta self)
    = c1 * c0 / ((c1 + c0) * (c1 + c0) * (c1 + c0 + 1)) ->
    let mu := BetaBinomial.mean Beta_mean self in
    sum_f_R0 (fun v => INR v * exp (BetaBinomial.log_prob gammaln betaln self
                                      (INR v))) n = mu
    /\ sum_f_R0 (fun v => (INR v - mu) * (INR v - mu)
                          * exp (BetaBinomial.log_prob gammaln betaln self
                                   (INR v))) n
       = BetaBinomial.variance Beta_variance self.
Proof.
  intros Hg Hb c1 c0 n H1 H0 self Hmean Hvar mu.
  assert (Emu : mu = INR n * c1 / (c1 + c0)).
  { unfold mu, BetaBinomial.mean. rewrite Hmean. cbn. field. lra. }
  split.
  - rewrite Emu.
    apply (BetaBinomial_first_moment gammaln betaln Hg Hb c1 c0 H1 H0 n).
  - unfold self at 1.
    rewrite (BetaBinomial_centred_second_moment gammaln betaln Hg Hb c1 c0
               H1 H0 n mu).
    unfold BetaBinomial.variance. rewrite Hvar, Emu. cbn. field. lra.
Qed.

Lemma BetaBinomial_moments_of_density_witness :
  sum_f_R0 (fun v => INR v * exp (BetaBinomial.log_prob LogGamma.lgamma lbeta
                                    (beta_binomial 2 3 (INR 4)) (INR v))) 4
  = BetaBinomial.mean
      (fun b => Beta.concentration1 b
                / (Beta.concentration1 b + Beta.concentration0 b))
      (beta_binomial 2 3 (INR 4)).
Proof.
  apply (BetaBinomial_moments_of_density LogGamma.lgamma lbeta
           (fun b => Beta.concentration1 b
                     / (Beta.concentration1 b + Beta.concentration0 b))
           (fun b => Beta.concentration1 b * Beta.concentration0 b
                     / ((Beta.concentration1 b + Beta.concentration0 b)
                        * (Beta.concentration1 b + Beta.concentration0 b)
                        * (Beta.concentration1 b + Beta.concentration0 b + 1)))
           lgamma_laws lbeta_laws 2 3 4); try lra; reflexivity.
Defined.

(** * GammaPoisson is the negative binomial *)

Lemma exp_INR_ln (q : R) (v : nat) : 0 < q -> exp (INR v * ln q) = q ^ v.
Proof.
  intros Hq. rewrite <- ln_pow by exact Hq.
  apply exp_ln, pow_lt, Hq.
Qed.

(** X6. For [concentration = alpha > 0], [rate > 0] and a nonnegative
    integer [v], the probability [exp (log_prob v)] of [GammaPoisson] is the
    negative-binomial probability
    [alpha (alpha + 1) ... (alpha + v - 1) / v! * p^alpha * (1 - p)^v] with
    [p = rate / (1 + rate)]. *)
Theorem GammaPoisson_is_negative_binomial
  (gammaln : R -> R) (betaln : R -> R -> R) :
  gammaln_laws gammaln -> betaln_laws gammaln betaln ->
  forall (self : GammaPoisson.t R) (v : nat),
    let alpha := GammaPoisson.concentration self in
    let rate := GammaPoisson.rate self in
    0 < alpha -> 0 < rate ->
    exp (GammaPoisson.log_prob betaln self (INR v))
    = rising_over_fact alpha v * Rpower (rate / (1 + rate)) alpha
      * (/ (1 + rate)) ^ v.
Proof.
  intros Hg Hb self v alpha rate Ha Hr.
  pose proof (pos_INR v) as Pv.
  assert (Hq : 0 < / (1 + rate)) by (apply Rinv_0_lt_compat; lra).
  unfold GammaPoisson.log_prob, log, log1p. fold alpha rate.
  rewrite (Hb alpha (INR v + 1)) by lra.
  replace (INR v + 1) with (1 + INR v) by ring.
  rewrite (gammaln_shift gammaln Hg 1 v) by lra.
  replace (alpha + (1 + INR v)) with (alpha + INR v + 1) by ring.
  rewrite (gammaln_succ gammaln Hg (alpha + INR v)) by lra.
  rewrite (gammaln_shift gammaln Hg alpha v) by exact Ha.
  rewrite (gammaln_1 gammaln Hg), rising_1.
  match goal with
  | |- exp ?e = _ =>
      replace e with (ln (rising alpha v) + - ln (INR (fact v))
                      + (alpha * ln (rate / (1 + rate))
                         + INR v * ln (/ (1 + rate))))
  end.
  - rewrite !exp_plus, exp_Ropp, exp_INR_ln by exact Hq.
    rewrite !exp_ln; [| apply INR_fact_lt_0 | apply rising_pos, Ha].
    rewrite rising_over_fact_eq. unfold Rpower, Rdiv. ring.
  - unfold Rdiv. rewrite ln_mult, ln_Rinv by lra. ring.
Qed.

Lemma GammaPoisson_is_negative_binomial_witness :
  exp (GammaPoisson.log_prob lbeta (gamma_poisson 2 3) (INR 1))
  = rising_over_fact 2 1 * Rpower (3 / (1 + 3)) 2 * (/ (1 + 3)) ^ 1.
Proof.
  apply (GammaPoisson_is_negative_binomial LogGamma.lgamma lbeta
           lgamma_laws lbeta_laws (gamma_poisson 2 3) 1); cbn; lra.
Defined.

(** X7. For [concentration > 0] and [rate > 0] the variance of
    [GammaPoisson] exceeds its mean: [variance = mean + mean^2 /
    concentration]. *)
Theorem GammaPoisson_overdispersed :
  forall self : GammaPoisson.t R,
    0 < GammaPoisson.concentration self -> 0 < GammaPoisson.rate self ->
    GammaPoisson.variance self
    = GammaPoisson.mean self
      + GammaPoisson.mean self * GammaPoisson.mean self
        / GammaPoisson.concentration self
    /\ GammaPoisson.mean self < GammaPoisson.variance self.
Proof.
  intros self Ha Hr.
  assert (E : GammaPoisson.variance self
              = GammaPoisson.mean self
                + GammaPoisson.mean self * GammaPoisson.mean self
                  / GammaPoisson.concentration self).
  { unfold GammaPoisson.variance, GammaPoisson.mean, square. field. lra. }
  split; [exact E|].
  rewrite E. unfold GammaPoisson.mean.
  set (a := GammaPoisson.concentration self) in *.
  set (r := GammaPoisson.rate self) in *.
  assert (H : 0 < a / r * (a / r) / a).
  { replace (a / r * (a / r) / a) with (a * (/ r * / r)) by (field; lra).
    apply Rmult_lt_0_compat; [exact Ha|].
    apply Rmult_lt_0_compat; apply Rinv_0_lt_compat; exact Hr. }
  lra.
Qed.

Lemma GammaPoisson_overdispersed_witness :
  GammaPoisson.mean (gamma_poisson 6 2) < GammaPoisson.variance (gamma_poisson 6 2).
Proof.
  apply (GammaPoisson_overdispersed (gamma_poisson 6 2)); cbn; lra.
Defined.

(** * Failures of [sample] and of the constructors *)

(** X8. Given something that is not a PRNG key, [sample] of each compound
    distribution fails its assertion before any call is made on the key:
    the key is not split and neither the prior nor the likelihood is
    sampled. *)
Theorem sample_asserts_key_before_use
  (key A V : Type) (is_prng_key : key -> bool) (split : key -> key * key) :
  forall (k : key) (sample_shape : list nat),
    is_prng_key k = false ->
    (forall Beta_sample BinomialProbs_sample self,
       BetaBinomial.sample key A is_prng_key split Beta_sample
         BinomialProbs_sample self k sample_shape
       = ([], Raise AssertionError))
    /\ (forall Dirichlet_sample MultinomialProbs_sample self,
          DirichletMultinomial.sample key V A is_prng_key split Dirichlet_sample
            MultinomialProbs_sample self k sample_shape
          = ([], Raise AssertionError))
    /\ (forall Gamma_sample Poisson_sample self,
          GammaPoisson.sample key A is_prng_key split Gamma_sample
            Poisson_sample self k sample_shape
          = ([], Raise AssertionError)).
Proof.
  intros k sample_shape Hk. repeat split; intros.
  - unfold BetaBinomial.sample, massert. rewrite Hk. reflexivity.
  - unfold DirichletMultinomial.sample, massert. rewrite Hk. reflexivity.
  - unfold GammaPoisson.sample, massert. rewrite Hk. reflexivity.
Qed.

Lemma sample_asserts_key_before_use_witness :
  BetaBinomial.sample positive R (fun _ => false) path_split
    (fun b k _ => Beta.concentration1 b) (fun b k => BinomialProbs.probs b)
    (beta_binomial 2 3 4) 1%positive []
  = ([], Raise AssertionError).
Proof.
  destruct (sample_asserts_key_before_use positive R (list R) (fun _ => false)
              path_split 1%positive [] eq_refl) as [Hbb _].
  apply Hbb.
Defined.

Lemma broadcast_shapes2_raises (s t : list nat) (e : exn) :
  broadcast_shapes2 s t = Raise e -> e = ValueError.
Proof.
  unfold broadcast_shapes2.
  destruct (broadcast_rev (rev s) (rev t)); [discriminate|].
  intros [= <-]. reflexivity.
Qed.

Lemma broadcast_shapes_raises (shapes : list (list nat)) (e : exn) :
  broadcast_shapes shapes = Raise e -> e = ValueError.
Proof.
  unfold broadcast_shapes.
  assert (H : forall acc,
            (forall e', acc = Raise e' -> e' = ValueError) ->
            fold_left (fun acc s => (r <- acc ;; broadcast_shapes2 r s)%result)
                      shapes acc = Raise e -> e = ValueError).
  { induction shapes as [|s shapes IH]; intros acc Hacc.
    - cbn. apply Hacc.
    - cbn [fold_left]. apply IH. intros e' He'.
      destruct acc as [r|e0]; cbn [rbind] in He'.
      + apply (broadcast_shapes2_raises r s), He'.
      + apply Hacc. exact He'. }
  apply H. intros e' He'. discriminate He'.
Qed.

Lemma not_broadcastable_raises (shapes : list (list nat)) :
  (forall bs, broadcast_shapes shapes <> Ok bs) ->
  broadcast_shapes shapes = Raise ValueError.
Proof.
  intros H. destruct (broadcast_shapes shapes) as [bs|e] eqn:E.
  - exfalso. apply (H bs). reflexivity.
  - rewrite (broadcast_shapes_raises shapes e E). reflexivity.
Qed.

(** X9. The constructors raise [ValueError], and build nothing, when the
    parameter shapes are not mutually broadcastable (for
    [DirichletMultinomial]: [total_count]'s shape and [concentration]'s
    shape less its last axis), and [DirichletMultinomial] raises it as well
    for a [concentration] without axes; with validation off they succeed
    in every other case. *)
Theorem constructors_raise_on_bad_shapes :
  (forall (c1 c0 tc : ndarray) (va : bool),
     (forall bs, broadcast_shapes [shape c1; shape c0; shape tc] <> Ok bs) ->
     BetaBinomial.__init__ c1 c0 tc va = Raise ValueError)
  /\ (forall (concentration tc : ndarray) (va : bool),
        (ndim concentration < 1)%nat ->
        DirichletMultinomial.__init__ concentration tc va = Raise ValueError)
  /\ (forall (concentration tc : ndarray) (va : bool),
        (forall bs, broadcast_shapes [but_last (shape concentration); shape tc]
                    <> Ok bs) ->
        DirichletMultinomial.__init__ concentration tc va = Raise ValueError)
  /\ (forall (c1 c0 tc : ndarray),
        (exists self, BetaBinomial.__init__ c1 c0 tc false = Ok self)
        <-> exists bs, broadcast_shapes [shape c1; shape c0; shape tc] = Ok bs)
  /\ (forall (concentration tc : ndarray),
        (exists self, DirichletMultinomial.__init__ concentration tc false = Ok self)
        <-> (1 <= ndim concentration)%nat
            /\ exists bs, broadcast_shapes
                            [but_last (shape concentration); shape tc] = Ok bs).
Proof.
  assert (Hbb : forall c1 c0 tc va,
            (forall bs, broadcast_shapes [shape c1; shape c0; shape tc] <> Ok bs) ->
            BetaBinomial.__init__ c1 c0 tc va = Raise ValueError).
  { intros c1 c0 tc va H. apply not_broadcastable_raises in H.
    unfold BetaBinomial.__init__, promote_shapes. cbn [map].
    rewrite broadcast_shapes_cons_nil, H. reflexivity. }
  assert (Hdm0 : forall concentration tc va,
            (ndim concentration < 1)%nat ->
            DirichletMultinomial.__init__ concentration tc va = Raise ValueError).
  { intros concentration tc va H. unfold DirichletMultinomial.__init__.
    apply Nat.ltb_lt in H. rewrite H. reflexivity. }
  assert (Hdm : forall concentration tc va,
            (forall bs, broadcast_shapes [but_last (shape concentration); shape tc]
                        <> Ok bs) ->
            DirichletMultinomial.__init__ concentration tc va = Raise ValueError).
  { intros concentration tc va H. apply not_broadcastable_raises in H.
    unfold DirichletMultinomial.__init__.
    destruct (Nat.ltb (ndim concentration) 1); [reflexivity|].
    rewrite H. reflexivity. }
  split; [exact Hbb|]. split; [exact Hdm0|]. split; [exact Hdm|]. split.
  - intros c1 c0 tc. split.
    + intros [self Hself].
      destruct (broadcast_shapes [shape c1; shape c0; shape tc]) as [bs|e] eqn:E.
      * exists bs. reflexivity.
      * exfalso. rewrite (Hbb c1 c0 tc false) in Hself; [discriminate|].
        intros bs Hbs. rewrite E in Hbs. discriminate.
    + intros [bs Hbs]. eexists.
      apply (BetaBinomial_init c1 c0 tc false bs Hbs). discriminate.
  - intros concentration tc. split.
    + intros [self Hself].
      destruct (Nat.le_gt_cases 1 (ndim concentration)) as [Hnd|Hnd].
      * split; [exact Hnd|].
        destruct (broadcast_shapes [but_last (shape concentration); shape tc])
          as [bs|e] eqn:E.
        -- exists bs. reflexivity.
        -- exfalso. rewrite (Hdm concentration tc false) in Hself; [discriminate|].
           intros bs Hbs. rewrite E in Hbs. discriminate.
      * exfalso. rewrite (Hdm0 concentration tc false Hnd) in Hself. discriminate.
    + intros [Hnd [bs Hbs]]. eexists.
      apply (DirichletMultinomial_init concentration tc false bs Hnd Hbs).
      discriminate.
Qed.

Lemma constructors_raise_on_bad_shapes_witness :
  BetaBinomial.__init__ (mk_ndarray [2%nat] (fun _ => 1))
    (mk_ndarray [3%nat] (fun _ => 1)) (mk_ndarray [] (fun _ => 4)) false
  = Raise ValueError
  /\ DirichletMultinomial.__init__ (mk_ndarray [] (fun _ => 1))
       (mk_ndarray [] (fun _ => 4)) false
     = Raise ValueError.
Proof.
  destruct constructors_raise_on_bad_shapes as [Hbb [Hdm0 _]].
  split.
  - apply Hbb. intros bs H. discriminate H.
  - apply Hdm0. cbn. lia.
Defined.

(** * DirichletMultinomial: symmetry, elementary form, and the sign of
    [log_prob] *)

Lemma Rsum_Permutation (l l' : list R) : Permutation l l' -> Rsum l = Rsum l'.
Proof.
  induction 1 as [|x l l' _ IH|x y l|l l' l'' _ IH1 _ IH2].
  - reflexivity.
  - rewrite !Rsum_cons, IH. reflexivity.
  - rewrite !Rsum_cons. ring.
  - rewrite IH1. exact IH2.
Qed.

Lemma map2_combine {A B C : Type} (f : A -> B -> C) (l : list A) (m : list B) :
  map2 f l m = map (fun p => f (fst p) (snd p)) (combine l m).
Proof.
  revert m. induction l as [|a l IH]; intros [|b m]; cbn; try reflexivity.
  rewrite IH. reflexivity.
Qed.

Lemma map_fst_combine {A B : Type} (l : list A) (m : list B) :
  length l = length m -> map fst (combine l m) = l.
Proof.
  revert m. induction l as [|a l IH]; intros [|b m] H; cbn in *;
    try reflexivity; try discriminate.
  rewrite IH by congruence. reflexivity.
Qed.

Lemma map_snd_combine {A B : Type} (l : list A) (m : list B) :
  length l = length m -> map snd (combine l m) = m.
Proof.
  revert m. induction l as [|a l IH]; intros [|b m] H; cbn in *;
    try reflexivity; try discriminate.
  rewrite IH by congruence. reflexivity.
Qed.

(** X10. [DirichletMultinomial.log_prob] does not depend on the order of
    the categories: permuting the concentration and the value together
    leaves it unchanged. *)
Theorem DirichletMultinomial_log_prob_permutation (gammaln : R -> R) :
  forall (self self' : DirichletMultinomial.t (list R) R) (value value' : list R),
    length (DirichletMultinomial.concentration self) = length value ->
    length (DirichletMultinomial.concentration self') = length value' ->
    Permutation (combine (DirichletMultinomial.concentration self) value)
                (combine (DirichletMultinomial.concentration self') value') ->
    DirichletMultinomial.log_prob gammaln self value
    = DirichletMultinomial.log_prob gammaln self' value'.
Proof.
  intros self self' value value' Hl Hl' Hp.
  unfold DirichletMultinomial.log_prob. cbn zeta.
  set (alpha := DirichletMultinomial.concentration self) in *.
  set (alpha' := DirichletMultinomial.concentration self') in *.
  assert (Ea : Rsum alpha = Rsum alpha').
  { rewrite <- (map_fst_combine alpha value Hl).
    rewrite <- (map_fst_combine alpha' value' Hl').
    apply Rsum_Permutation, Permutation_map, Hp. }
  assert (Ev : Rsum value = Rsum value').
  { rewrite <- (map_snd_combine alpha value Hl).
    rewrite <- (map_snd_combine alpha' value' Hl').
    apply Rsum_Permutation, Permutation_map, Hp. }
  assert (Em : Rsum (map2 (_log_beta_1 gammaln) alpha value)
               = Rsum (map2 (_log_beta_1 gammaln) alpha' value')).
  { rewrite !map2_combine. apply Rsum_Permutation, Permutation_map, Hp. }
  rewrite Ea, Ev, Em. reflexivity.
Qed.

Lemma DirichletMultinomial_log_prob_permutation_witness :
  DirichletMultinomial.log_prob LogGamma.lgamma
    (dirichlet_multinomial [1; 2] 3) [3; 0]
  = DirichletMultinomial.log_prob LogGamma.lgamma
      (dirichlet_multinomial [2; 1] 3) [0; 3].
Proof.
  apply (DirichletMultinomial_log_prob_permutation LogGamma.lgamma
           (dirichlet_multinomial [1; 2] 3) (dirichlet_multinomial [2; 1] 3)
           [3; 0] [0; 3] eq_refl eq_refl).
  apply perm_swap.
Defined.

(** X11. At a vector [x] of counts, the probability [exp (log_prob x)] of
    [DirichletMultinomial] is [n! / (A (A + 1) ... (A + n - 1))] times the
    product over the categories of
    [alpha_i (alpha_i + 1) ... (alpha_i + x_i - 1) / x_i!], where [n] is the
    sum of [x] and [A] the sum of [alpha]: no Gamma function is left. *)
Theorem DirichletMultinomial_density_elementary (gammaln : R -> R) :
  gammaln_laws gammaln ->
  forall (self : DirichletMultinomial.t (list R) R) (x : list nat),
    let alpha := DirichletMultinomial.concentration self in
    alpha <> [] -> Forall (fun a => 0 < a) alpha -> length x = length alpha ->
    exp (DirichletMultinomial.log_prob gammaln self (map INR x))
    = INR (fact (list_sum x)) / rising (Rsum alpha) (list_sum x)
      * composition_weight alpha x.
Proof.
  intros Hg self x alpha Hne Hpos Hl.
  apply (DirichletMultinomial_exp_log_prob gammaln Hg self x Hne Hpos Hl).
Qed.

Lemma DirichletMultinomial_density_elementary_witness :
  exp (DirichletMultinomial.log_prob LogGamma.lgamma
         (dirichlet_multinomial [1; 2] 3) (map INR [1; 2]%nat))
  = INR (fact (list_sum [1; 2]%nat)) / rising (Rsum [1; 2]) (list_sum [1; 2]%nat)
    * composition_weight [1; 2] [1; 2]%nat.
Proof.
  assert (Hne : [1; 2] <> @nil R) by discriminate.
  assert (Hpos : Forall (fun a => 0 < a) [1; 2]) by (repeat constructor; lra).
  apply (DirichletMultinomial_density_elementary LogGamma.lgamma lgamma_laws
           (dirichlet_multinomial [1; 2] 3) [1; 2]%nat Hne Hpos eq_refl).
Defined.

Lemma Rsum_term_le (l : list R) (y : R) :
  Forall (fun t => 0 <= t) l -> In y l -> y <= Rsum l.
Proof.
  induction 1 as [|t l Ht Hall IH]; intros Hin; [destruct Hin|].
  assert (Hs : 0 <= Rsum l).
  { clear IH Hin. induction Hall as [|u l Hu _ IHl]; [unfold Rsum; cbn; lra|].
    rewrite Rsum_cons. lra. }
  rewrite Rsum_cons. destruct Hin as [<-|Hin]; [lra|].
  specialize (IH Hin). lra.
Qed.

Lemma exp_le_1_nonpositive (t : R) : exp t <= 1 -> t <= 0.
Proof.
  intros H. destruct (Rle_or_lt t 0) as [Hle|Hlt]; [exact Hle|].
  exfalso. pose proof (exp_increasing 0 t Hlt) as Hi.
  rewrite exp_0 in Hi. lra.
Qed.

(** X12. [log_prob] is never positive on the support: for
    [DirichletMultinomial] at every vector of counts over the categories,
    and for [BetaBinomial] at every integer of [0 .. total_count], the
    probability [exp (log_prob)] is at most [1]. *)
Theorem log_prob_nonpositive_on_support
  (gammaln : R -> R) (betaln : R -> R -> R) :
  gammaln_laws gammaln -> betaln_laws gammaln betaln ->
  (forall (self : DirichletMultinomial.t (list R) R) (x : list nat),
     let alpha := DirichletMultinomial.concentration self in
     alpha <> [] -> Forall (fun a => 0 < a) alpha -> length x = length alpha ->
     DirichletMultinomial.log_prob gammaln self (map INR x) <= 0)
  /\ (forall (c1 c0 : R) (n v : nat),
        0 < c1 -> 0 < c0 -> (v <= n)%nat ->
        BetaBinomial.log_prob gammaln betaln (beta_binomial c1 c0 (INR n)) (INR v)
        <= 0).
Proof.
  intros Hg Hb.
  assert (Hdm : forall (self : DirichletMultinomial.t (list R) R) (x : list nat),
            DirichletMultinomial.concentration self <> [] ->
            Forall (fun a => 0 < a) (DirichletMultinomial.concentration self) ->
            length x = length (DirichletMultinomial.concentration self) ->
            DirichletMultinomial.log_prob gammaln self (map INR x) <= 0).
  { intros self x Hne Hpos Hl. apply exp_le_1_nonpositive.
    rewrite <- (DirichletMultinomial_sums_to_one gammaln Hg self (list_sum x)
                  Hne Hpos).
    apply Rsum_term_le.
    - apply Forall_forall. intros t Ht. apply in_map_iff in Ht.
      destruct Ht as [y [<- _]]. left. apply exp_pos.
    - apply in_map_iff. exists x. split; [reflexivity|].
      apply compositions_In. split; [exact Hl | reflexivity]. }
  split.
  - intros self x alpha. apply Hdm.
  - intros c1 c0 n v H1 H0 Hv.
    rewrite (BetaBinomial_as_DirichletMultinomial gammaln betaln c1 c0 n v
               Hb H1 H0 Hv).
    apply (Hdm (dirichlet_multinomial [c1; c0] (INR n)) [v; (n - v)%nat]).
    + discriminate.
    + repeat constructor; assumption.
    + reflexivity.
Qed.

Lemma log_prob_nonpositive_on_support_witness :
  BetaBinomial.log_prob LogGamma.lgamma lbeta (beta_binomial 2 3 (INR 4)) (INR 1)
  <= 0.
Proof.
  destruct (log_prob_nonpositive_on_support LogGamma.lgamma lbeta
              lgamma_laws lbeta_laws) as [_ Hbb].
  apply (Hbb 2 3 4%nat 1%nat); try lra; lia.
Defined.

(** * The two modes of Welford's covariance agree *)

Lemma nth_tab (d : nat) (F : nat -> R) (i : nat) :
  (i < d)%nat -> nth i (Welford.tab d F) 0 = F i.
Proof.
  intros Hi. unfold Welford.tab.
  rewrite (nth_map_lt F (seq 0 d) i 0%nat) by (rewrite length_seq; exact Hi).
  rewrite seq_nth by exact Hi. reflexivity.
Qed.

Lemma nth_tab2 (d : nat) (F : nat -> nat -> R) (i : nat) :
  (i < d)%nat -> nth i (Welford.tab2 d F) [] = Welford.tab d (F i).
Proof.
  intros Hi. unfold Welford.tab2.
  rewrite (nth_indep _ [] ((fun k => Welford.tab d (F k)) 0%nat))
    by (rewrite length_map, length_seq; exact Hi).
  rewrite (map_nth (fun k => Welford.tab d (F k))), seq_nth by exact Hi.
  reflexivity.
Qed.

Lemma comoment_sym (f g : Welford.vec -> R) (xs : list Welford.vec) :
  Welford.comoment f g xs = Welford.comoment g f xs.
Proof.
  unfold Welford.comoment. apply Rsum_map_ext_in. intros x _. ring.
Qed.

Lemma final_fn_diagonal_tab (size : nat) (samples : list Welford.vec)
  (regularize : bool) :
  Forall (fun x => length x = size) samples ->
  let n := INR (length samples) in
  Welford.final_fn true (Welford.run true size samples) regularize
  = Welford.tab size
      (fun i =>
         let cov := / (n - 1)
                    * Welford.comoment (Welford.coord i) (Welford.coord i) samples in
         if regularize
         then n / (n + 5) * cov + 1 / 1000 * (5 / (n + 5)) * 1
         else cov).
Proof.
  intros Hlen n.
  rewrite (WelfordFacts.run_diagonal size samples Hlen).
  unfold Welford.final_fn. cbn [Welford.count Welford.mean Welford.m2].
  rewrite WelfordFacts.tab_length, WelfordFacts.vscale_tab. fold n.
  destruct regularize; [|reflexivity].
  rewrite WelfordFacts.repeat_tab, !WelfordFacts.vscale_tab,
    WelfordFacts.vadd_tab.
  reflexivity.
Qed.

Lemma final_fn_dense_tab2 (size : nat) (samples : list Welford.vec)
  (regularize : bool) :
  Forall (fun x => length x = size) samples ->
  let n := INR (length samples) in
  Welford.final_fn false (Welford.run false size samples) regularize
  = Welford.tab2 size
      (fun i j =>
         let cov := / (n - 1)
                    * Welford.comoment (Welford.coord i) (Welford.coord j) samples in
         if regularize
         then n / (n + 5) * cov
              + 1 / 1000 * (5 / (n + 5)) * (if Nat.eqb i j then 1 else 0)
         else cov).
Proof.
  intros Hlen n.
  rewrite (WelfordFacts.run_dense size samples Hlen).
  unfold Welford.final_fn. cbn [Welford.count Welford.mean Welford.m2].
  rewrite WelfordFacts.tab_length, WelfordFacts.mscale_tab2. fold n.
  destruct regularize; [|reflexivity].
  rewrite WelfordFacts.identity_tab2, !WelfordFacts.mscale_tab2,
    WelfordFacts.madd_tab2.
  reflexivity.
Qed.

(** X13. After the loop of [test_welford_covariance], with or without
    regularisation, the result of diagonal mode is the diagonal of the
    result of full mode, and the full result is a symmetric matrix. *)
Theorem welford_diagonal_mode_is_diagonal :
  forall (size : nat) (samples : list Welford.vec) (regularize : bool) (i j : nat),
    Forall (fun x => length x = size) samples ->
    (i < size)%nat -> (j < size)%nat ->
    let full := Welford.final_fn false (Welford.run false size samples) regularize in
    nth i (Welford.final_fn true (Welford.run true size samples) regularize) 0
    = nth i (nth i full []) 0
    /\ nth j (nth i full []) 0 = nth i (nth j full []) 0.
Proof.
  intros size samples regularize i j Hlen Hi Hj full. unfold full.
  rewrite (final_fn_diagonal_tab size samples regularize Hlen).
  rewrite (final_fn_dense_tab2 size samples regularize Hlen).
  rewrite !nth_tab2, !nth_tab by assumption.
  cbn zeta. split.
  - rewrite Nat.eqb_refl. reflexivity.
  - rewrite (comoment_sym (Welford.coord i) (Welford.coord j)),
      (Nat.eqb_sym i j).
    reflexivity.
Qed.

Lemma welford_diagonal_mode_is_diagonal_witness :
  nth 0 (Welford.final_fn true (Welford.run true 2 [[1; 2]; [3; 5]]) false) 0
  = nth 0 (nth 0 (Welford.final_fn false (Welford.run false 2 [[1; 2]; [3; 5]])
                    false) []) 0.
Proof.
  assert (Hlen : Forall (fun x : Welford.vec => length x = 2%nat) [[1; 2]; [3; 5]])
    by (repeat constructor).
  apply (welford_diagonal_mode_is_diagonal 2 [[1; 2]; [3; 5]] false 0 0 Hlen);
    lia.
Defined.
